(** * DomainContentBackupManager: rule-driven backups, archive discovery, retention

    A shallow embedding of [domain-server/src/DomainContentBackupManager.cpp].

    The file has three parts:
    - [Qt]: the behaviour of the Qt classes the manager calls (QString,
      QDateTime, QRegExp, QDir name filters, QJsonValue), as functions;
    - [DomainContentBackupManager]: the member functions of the class, one
      definition per member function, over an explicit [World] (the backup
      directory, the clock and the diagnostic output) and an [Env] that
      decides the outcome of every file operation whose result the code
      tests;
    - the properties of the natural-language specification.

    The scheduler ([process]), the Loader ([load]) and the Consolidator
    ([consolidate]) take no part in these properties and are not
    embedded. *)

From Stdlib Require Import List String Ascii NArith ZArith Arith Bool Lia.
From Stdlib Require Import Permutation Sorting.Sorted.
Import ListNotations.

Local Open Scope string_scope.
Local Open Scope Z_scope.

(* ================================================================== *)
(** * Part 1. The Qt classes used by the manager *)
(* ================================================================== *)

Module Qt.

(** ** QString *)

(** [QChar::toLower] on the Latin letters; the characters of a [string]
    are 8-bit, every other code is left as it is. *)
Definition toLowerChar (c : ascii) : ascii :=
  let n := nat_of_ascii c in
  if ((65 <=? n) && (n <=? 90))%nat then ascii_of_nat (n + 32) else c.

(** [QString::toLower]. *)
Fixpoint toLower (s : string) : string :=
  match s with
  | EmptyString => EmptyString
  | String c s' => String (toLowerChar c) (toLower s')
  end.

(** [QString::replace(before, after)] for one-character [before] and
    [after], the only use the manager makes of it. *)
Fixpoint replaceChar (before after : ascii) (s : string) : string :=
  match s with
  | EmptyString => EmptyString
  | String c s' =>
      String (if Ascii.eqb c before then after else c)
             (replaceChar before after s')
  end.

(** Whether [c] occurs in [s] ([QString::contains]). *)
Fixpoint contains (c : ascii) (s : string) : bool :=
  match s with
  | EmptyString => false
  | String d s' => Ascii.eqb d c || contains c s'
  end.

(** [s] without its leading [p], when [s] starts with [p]. *)
Fixpoint stripPrefix (p s : string) : option string :=
  match p with
  | EmptyString => Some s
  | String c p' =>
      match s with
      | EmptyString => None
      | String d s' => if Ascii.eqb c d then stripPrefix p' s' else None
      end
  end.

(** The value of a decimal digit. *)
Definition digitValue (c : ascii) : option nat :=
  let n := nat_of_ascii c in
  if ((48 <=? n) && (n <=? 57))%nat then Some (n - 48)%nat else None.

Definition isDigit (c : ascii) : bool :=
  match digitValue c with Some _ => true | None => false end.

Definition digitChar (n : nat) : ascii := ascii_of_nat (48 + n mod 10).

(** Decimal notation of a natural number, most significant digit first. *)
Fixpoint decimalFuel (fuel n : nat) (acc : string) : string :=
  match fuel with
  | O => acc
  | S fuel' =>
      let acc' := String (digitChar n) acc in
      if (n / 10 =? 0)%nat then acc' else decimalFuel fuel' (n / 10) acc'
  end.

Definition decimal (n : nat) : string := decimalFuel (S n) n "".

Fixpoint zeros (k : nat) : string :=
  match k with
  | O => ""
  | S k' => String "0" (zeros k')
  end.

(** A number in at least [w] digits, padded with zeros on the left: what
    [QDateTime::toString] writes for [yyyy] (w = 4) and [MM], [dd], [HH],
    [mm], [ss] (w = 2). *)
Definition zeroPad (w n : nat) : string :=
  let d := decimal n in zeros (w - String.length d) ++ d.

(** The value of a string of decimal digits, [None] when a character is
    not a digit. *)
Fixpoint digitsValue (acc : nat) (s : string) : option nat :=
  match s with
  | EmptyString => Some acc
  | String c s' =>
      match digitValue c with
      | Some d => digitsValue (10 * acc + d) s'
      | None => None
      end
  end.

(** [QString::toInt()]: optional blanks, an optional sign, decimal digits;
    0 when the text is not a number or does not fit an [int]. *)
Fixpoint trimLeft (s : string) : string :=
  match s with
  | String " " s' => trimLeft s'
  | _ => s
  end.

Fixpoint rev (s acc : string) : string :=
  match s with
  | EmptyString => acc
  | String c s' => rev s' (String c acc)
  end.

Definition trimmed (s : string) : string :=
  rev (trimLeft (rev (trimLeft s) "")) "".

Definition INT_MIN : Z := - 2 ^ 31.
Definition INT_MAX : Z := 2 ^ 31 - 1.

Definition inIntRange (z : Z) : bool := (INT_MIN <=? z) && (z <=? INT_MAX).

Definition toInt (s : string) : Z :=
  let magnitude (digits : string) : option Z :=
    match digits with
    | EmptyString => None
    | _ => option_map Z.of_nat (digitsValue 0 digits)
    end in
  let value :=
    match trimmed s with
    | String "-" ds => option_map Z.opp (magnitude ds)
    | String "+" ds => magnitude ds
    | ds => magnitude ds
    end in
  match value with
  | Some z => if inIntRange z then z else 0
  | None => 0
  end.

(** ** QDateTime *)

(** A valid [QDateTime], by its calendar fields in the local time zone.
    The null [QDateTime] of the code (a default-constructed one) is [None]
    in an [option DateTime]. *)
Record DateTime : Set := mkDateTime {
  year : nat; month : nat; day : nat;
  hour : nat; minute : nat; second : nat
}.

Definition isLeapYear (y : nat) : bool :=
  ((y mod 4 =? 0) && (negb (y mod 100 =? 0) || (y mod 400 =? 0)))%nat.

Definition daysInMonth (y m : nat) : nat :=
  match m with
  | 1 | 3 | 5 | 7 | 8 | 10 | 12 => 31
  | 4 | 6 | 9 | 11 => 30
  | 2 => if isLeapYear y then 29 else 28
  | _ => 0
  end%nat.

(** [QDate::isValid] and [QTime::isValid] on the fields read from a
    [yyyy-MM-dd_HH-mm-ss] text (there is no year 0). *)
Definition isValid (t : DateTime) : bool :=
  ((1 <=? year t) && (1 <=? month t) && (month t <=? 12)
   && (1 <=? day t) && (day t <=? daysInMonth (year t) (month t))
   && (hour t <=? 23) && (minute t <=? 59) && (second t <=? 59))%nat.

(** [operator<] of two valid date-times of the same time specification:
    the order of their instants, which is the lexicographic order of the
    fields. *)
Definition ltb (a b : DateTime) : bool :=
  match Nat.compare (year a) (year b) with
  | Lt => true | Gt => false
  | Eq =>
  match Nat.compare (month a) (month b) with
  | Lt => true | Gt => false
  | Eq =>
  match Nat.compare (day a) (day b) with
  | Lt => true | Gt => false
  | Eq =>
  match Nat.compare (hour a) (hour b) with
  | Lt => true | Gt => false
  | Eq =>
  match Nat.compare (minute a) (minute b) with
  | Lt => true | Gt => false
  | Eq => (second a <? second b)%nat
  end end end end end.

(** [a > b] where [b] may be the null date-time: since Qt 5.14 an invalid
    date-time is less than every valid one. *)
Definition gtNullable (a : DateTime) (b : option DateTime) : bool :=
  match b with
  | None => true
  | Some b' => ltb b' a
  end.

(** Days from 1970-01-01 to the given civil date (proleptic Gregorian). *)
Definition daysFromCivil (y m d : Z) : Z :=
  let y' := if m <=? 2 then y - 1 else y in
  let era := y' / 400 in
  let yoe := y' - era * 400 in
  let doy := (153 * (m + (if 2 <? m then -3 else 9)) + 2) / 5 + d - 1 in
  let doe := yoe * 365 + yoe / 4 - yoe / 100 + doy in
  era * 146097 + doe - 719468.

(** [QDateTime::toSecsSinceEpoch], for a local time zone [utcOffset]
    seconds ahead of UTC. *)
Definition toSecsSinceEpoch (utcOffset : Z) (t : DateTime) : Z :=
  daysFromCivil (Z.of_nat (year t)) (Z.of_nat (month t)) (Z.of_nat (day t))
    * 86400
  + Z.of_nat (hour t) * 3600 + Z.of_nat (minute t) * 60 + Z.of_nat (second t)
  - utcOffset.

(** [QDateTime::toString("yyyy-MM-dd_HH-mm-ss")]. *)
Definition toString (t : DateTime) : string :=
  zeroPad 4 (year t) ++ "-" ++ zeroPad 2 (month t) ++ "-"
  ++ zeroPad 2 (day t) ++ "_" ++ zeroPad 2 (hour t) ++ "-"
  ++ zeroPad 2 (minute t) ++ "-" ++ zeroPad 2 (second t).

(** The shape [\d{4}-\d{2}-\d{2}_\d{2}-\d{2}-\d{2}] (DATETIME_FORMAT_RE),
    matched against a whole text. *)
Definition dateTimeFields (s : string)
  : option (string * string * string * string * string * string) :=
  match list_ascii_of_string s with
  | [y1; y2; y3; y4; c1; m1; m2; c2; d1; d2; c3;
     h1; h2; c4; n1; n2; c5; s1; s2] =>
      if forallb isDigit
           [y1; y2; y3; y4; m1; m2; d1; d2; h1; h2; n1; n2; s1; s2]
         && Ascii.eqb c1 "-" && Ascii.eqb c2 "-" && Ascii.eqb c3 "_"
         && Ascii.eqb c4 "-" && Ascii.eqb c5 "-"
      then Some (string_of_list_ascii [y1; y2; y3; y4],
                 string_of_list_ascii [m1; m2],
                 string_of_list_ascii [d1; d2],
                 string_of_list_ascii [h1; h2],
                 string_of_list_ascii [n1; n2],
                 string_of_list_ascii [s1; s2])
      else None
  | _ => None
  end.

Definition matchesDateTimeRE (s : string) : bool :=
  match dateTimeFields s with Some _ => true | None => false end.

(** [QDateTime::fromString(text, "yyyy-MM-dd_HH-mm-ss")]: the date-time
    when the text has the shape of the format and names a valid date and
    time, the null date-time ([None]) otherwise. *)
Definition fromString (s : string) : option DateTime :=
  match dateTimeFields s with
  | Some (ys, ms, ds, hs, ns, ss) =>
      match digitsValue 0 ys, digitsValue 0 ms, digitsValue 0 ds,
            digitsValue 0 hs, digitsValue 0 ns, digitsValue 0 ss with
      | Some y, Some m, Some d, Some h, Some n, Some sec =>
          let t := mkDateTime y m d h n sec in
          if isValid t then Some t else None
      | _, _, _, _, _, _ => None
      end
  | None => None
  end.

(** ** QRegExp *)

(** [formatRE.exactMatch(fileName)] for the expression built by the
    scanner, [QRegExp::escape(format) + "(" + DATETIME_FORMAT_RE + ")" +
    "\\.zip"]: the escaped [format] matches itself, then come the
    nineteen characters of a timestamp, then [.zip], and nothing else.
    The result is [cap(1)], the text of the timestamp. *)
Definition formatRE_cap1 (format fileName : string) : option string :=
  match stripPrefix format fileName with
  | None => None
  | Some rest =>
      let datetime := substring 0 19 rest in
      let suffix := substring 19 (String.length rest - 19) rest in
      if matchesDateTimeRE datetime && String.eqb suffix ".zip"
      then Some datetime
      else None
  end.

(** ** QDir and QDirIterator *)

(** A name filter matched against a whole file name: [*] stands for any
    run of characters, [?] for any one character, every other character
    for itself.  The manager never passes [QDir::CaseSensitive], so letters
    are compared without case.  Bracket sets are not modelled: a filter
    with a [[] is outside this definition. *)
Fixpoint wildcardMatch (pattern name : string) {struct pattern} : bool :=
  match pattern with
  | EmptyString =>
      match name with EmptyString => true | String _ _ => false end
  | String c pattern' =>
      if Ascii.eqb c "*" then
        (fix star (n : string) : bool :=
           wildcardMatch pattern' n
           || match n with
              | EmptyString => false
              | String _ n' => star n'
              end) name
      else
        match name with
        | EmptyString => false
        | String d name' =>
            (Ascii.eqb c "?" || Ascii.eqb (toLowerChar c) (toLowerChar d))
            && wildcardMatch pattern' name'
        end
  end.

(** [QDir::Name] without [QDir::IgnoreCase] or [QDir::LocaleAware]: file
    names ascending by [QString::compare], the order of the character
    codes. *)
Fixpoint insertByName (f : string) (sorted : list string) : list string :=
  match sorted with
  | [] => [f]
  | g :: rest =>
      if String.leb f g then f :: sorted else g :: insertByName f rest
  end.

Fixpoint sortByName (fs : list string) : list string :=
  match fs with
  | [] => []
  | f :: rest => insertByName f (sortByName rest)
  end.

(** [QDir::entryInfoList({filter}, QDir::Files | QDir::NoSymLinks,
    QDir::Name)] on the regular files [fs] of a directory. *)
Definition entryInfoList (nameFilter : string) (fs : list string)
  : list string :=
  sortByName (filter (wildcardMatch nameFilter) fs).

(** The entries a [QDirIterator] with that name filter visits, in the
    order the directory yields them. *)
Definition dirIteratorEntries (nameFilter : string) (fs : list string)
  : list string :=
  filter (wildcardMatch nameFilter) fs.

(** ** QJsonValue and QJsonObject *)

#[local] Set Warnings "-register-all".
Inductive QJsonValue : Type :=
| JNull
| JUndefined
| JBool (b : bool)
| JDouble (numerator : Z) (denominator : positive)
| JString (s : string)
| JArray (items : list QJsonValue)
| JObject (members : list (string * QJsonValue)).

Definition QJsonObject : Type := list (string * QJsonValue).

(** [obj[key]]: the member, [JUndefined] when there is none. *)
Fixpoint value (key : string) (obj : QJsonObject) : QJsonValue :=
  match obj with
  | [] => JUndefined
  | (k, v) :: rest => if String.eqb k key then v else value key rest
  end.

Definition isArray (v : QJsonValue) : bool :=
  match v with JArray _ => true | _ => false end.

Definition isString (v : QJsonValue) : bool :=
  match v with JString _ => true | _ => false end.

Definition toArray (v : QJsonValue) : list QJsonValue :=
  match v with JArray items => items | _ => [] end.

Definition toObject (v : QJsonValue) : QJsonObject :=
  match v with JObject members => members | _ => [] end.

(** [QJsonValue::toString()]: the null string for anything but a string. *)
Definition jsonToString (v : QJsonValue) : string :=
  match v with JString s => s | _ => "" end.

(** [QJsonValue::toInt()]: the number when it is integral and fits an
    [int], 0 otherwise. *)
Definition jsonToInt (v : QJsonValue) : Z :=
  match v with
  | JDouble n d =>
      if (n mod Z.pos d =? 0) && inIntRange (n / Z.pos d)
      then n / Z.pos d else 0
  | _ => 0
  end.

End Qt.

(* ================================================================== *)
(** * Part 2. The manager *)
(* ================================================================== *)

Module DomainContentBackupManager.
Import Qt.

(** ** State *)

(** A registered handler.  The manager never looks inside one: it is
    known here by the number under which it was registered. *)
Definition BackupHandler : Set := nat.

(** [intervalSeconds] and [maxBackupVersions] are [int]s and
    [lastBackupSeconds] is an [int64_t].  The manager only subtracts and
    compares them, on second counts and file counts far from the bounds
    of the types (where C++ leaves signed overflow undefined), so they
    are integers here. *)
Record BackupRule : Set := mkBackupRule {
  name : string;
  intervalSeconds : Z;
  extensionFormat : string;
  maxBackupVersions : Z;
  lastBackupSeconds : Z
}.

Definition setLastBackupSeconds (secs : Z) (rule : BackupRule) : BackupRule :=
  mkBackupRule (name rule) (intervalSeconds rule) (extensionFormat rule)
               (maxBackupVersions rule) secs.

(** The members of the class the backup cycle uses. *)
Record Manager : Set := mkManager {
  _backupDirectory : string;
  _backupHandlers : list BackupHandler;
  _backupRules : list BackupRule
}.

Definition setBackupRules (rules : list BackupRule) (m : Manager) : Manager :=
  mkManager (_backupDirectory m) (_backupHandlers m) rules.

(** What a run of the manager does that can be seen from outside: the
    lines it writes to the debug output, one constructor per [qDebug] /
    [qCDebug] statement of the source, and its calls of the handlers. *)
Inductive Event : Set :=
(* parseSettings *)
| SettingsDump (backupsIsArray : bool)
| BackupRulesHeader
| RuleName (ruleName : string)
| RuleFormat (format : string)
| RuleInterval (interval : Z)
| RuleCount (count : Z)
| RuleLastBackupAgo (sinceLastBackup : Z)
| RuleLastBackupNever
| BackupRulesNone
(* getMostRecentBackup *)
| SkippingInvalidTimestamp (datetime : string)
| Checking (filePath : string)
| NoMatch (fileName : string)
(* removeOldBackupVersions *)
| RollingOldVersions (ruleName : string)
| RemovedOldBackup (filePath : string)
| FailedToRemoveOldBackup (filePath : string)
| DoneRolling
| NoNeedToRoll (ruleName : string) (maxVersions : Z)
(* backup *)
| CheckingRule (ruleName : string) (secondsSinceLastBackup interval : Z)
| DoingBackupNow (ruleName : string) (secondsSinceLastBackup interval : Z)
| CouldNotOpenArchive (zipName : string)
| ArchiveOpenError (zipName : string)
| CreateBackupCall (handler : BackupHandler) (zipName : string)
                   (zipIsOpen : bool)
| CreatedBackup (fileName : string)
| BackupNotNeeded (ruleName : string)
(* aboutToFinish *)
| PersistAboutToFinish.

(** The world outside the object.  [directory] is the backup directory:
    [None] while it does not exist, otherwise the names of its regular
    files in the order the directory yields them.  [ticks] counts the
    readings of the clock made so far. *)
Record World : Set := mkWorld {
  directory : option (list string);
  ticks : nat;
  output : list Event
}.

(** What the run cannot decide: the clock, the time zone, and the outcome
    of the file operations.  [removeSucceeds] decides every removal of a
    file, by its path: [QFile::remove] in the Retention Enforcer and the
    [remove] of the lock file in [persist].  [mkpath] may fail too, which
    shows when the lock file is opened.  [zip.close()], whose result the
    code discards, has its nominal effect.  What a handler writes into
    the archive it is given is not followed. *)
Record Env : Type := mkEnv {
  clock : nat -> DateTime;
  utcOffset : Z;
  mkpathSucceeds : bool;
  lockFileOpens : bool;
  zipOpens : string -> bool;
  removeSucceeds : string -> bool
}.

Definition files (w : World) : list string :=
  match directory w with
  | Some fs => fs
  | None => []
  end.

Definition dirExists (w : World) : bool :=
  match directory w with
  | Some _ => true
  | None => false
  end.

Definition emit (e : Event) (w : World) : World :=
  mkWorld (directory w) (ticks w) (output w ++ [e]).

Definition setDirectory (d : option (list string)) (w : World) : World :=
  mkWorld d (ticks w) (output w).

(** A file comes into being: nothing changes when the name is there. *)
Definition addFile (f : string) (fs : list string) : list string :=
  if existsb (String.eqb f) fs then fs else fs ++ [f].

Definition deleteFile (f : string) (fs : list string) : list string :=
  filter (fun g => negb (String.eqb g f)) fs.

(** A file of the backup directory is unlinked. *)
Definition unlink (f : string) (w : World) : World :=
  setDirectory (option_map (deleteFile f) (directory w)) w.

(** [QDateTime::currentDateTime()]. *)
Definition currentDateTime (env : Env) (w : World) : DateTime * World :=
  (clock env (ticks w), mkWorld (directory w) (S (ticks w)) (output w)).

(** [QDateTime::currentSecsSinceEpoch()]. *)
Definition currentSecsSinceEpoch (env : Env) (w : World) : Z * World :=
  let '(now, w) := currentDateTime env w in
  (toSecsSinceEpoch (utcOffset env) now, w).

(** [QDir(_backupDirectory).mkpath(".")]. *)
Definition mkpath (env : Env) (w : World) : World :=
  match directory w with
  | Some _ => w
  | None => if mkpathSucceeds env then setDirectory (Some []) w else w
  end.

(** [QuaZip::open(QuaZip::mdAdd)] on [_backupDirectory + "/" + fileName]:
    on success the archive exists afterwards. *)
Definition zipOpen (env : Env) (zipName fileName : string) (w : World)
  : bool * World :=
  match directory w with
  | Some fs =>
      if zipOpens env zipName
      then (true, setDirectory (Some (addFile fileName fs)) w)
      else (false, w)
  | None => (false, w)
  end.

(** [dirIterator.filePath()] and [QFileInfo::absoluteFilePath()] of an
    entry of the backup directory. *)
Definition filePath (m : Manager) (fileName : string) : string :=
  _backupDirectory m ++ "/" ++ fileName.

(** ** addBackupHandler *)

Definition addBackupHandler (handler : BackupHandler) (m : Manager)
  : Manager :=
  mkManager (_backupDirectory m) (_backupHandlers m ++ [handler])
            (_backupRules m).

(** ** getMostRecentBackup *)

(** The three locals the scan keeps. *)
Record BestBackup : Set := mkBestBackup {
  bestBackupFound : bool;
  bestBackupFile : string;
  bestBackupFileTime : option DateTime
}.

(** The body of the [while (dirIterator.hasNext())] loop. *)
Definition scanEntry (m : Manager) (format fileName : string)
    (best : BestBackup) (w : World) : BestBackup * World :=
  match formatRE_cap1 format fileName with
  | Some datetime =>
      match fromString datetime with
      | None => (best, emit (SkippingInvalidTimestamp datetime) w)
      | Some createdAt =>
          let w := emit (Checking (filePath m fileName)) w in
          if gtNullable createdAt (bestBackupFileTime best)
          then (mkBestBackup true (filePath m fileName) (Some createdAt), w)
          else (best, w)
      end
  | None => (best, emit (NoMatch fileName) w)
  end.

Fixpoint scanEntries (m : Manager) (format : string) (entries : list string)
    (best : BestBackup) (w : World) : BestBackup * World :=
  match entries with
  | [] => (best, w)
  | fileName :: rest =>
      let '(best', w') := scanEntry m format fileName best w in
      scanEntries m format rest best' w'
  end.

(** The two reference parameters are passed in and returned next to the
    [bool] result. *)
Definition getMostRecentBackup (m : Manager) (format : string)
    (mostRecentBackupFileName : string)
    (mostRecentBackupTime : option DateTime) (w : World)
  : (bool * string * option DateTime) * World :=
  let entries := dirIteratorEntries (format ++ "*.zip") (files w) in
  let '(best, w) :=
    scanEntries m format entries (mkBestBackup false "" None) w in
  if bestBackupFound best
  then ((true, bestBackupFile best, bestBackupFileTime best), w)
  else ((false, mostRecentBackupFileName, mostRecentBackupTime), w).

(** ** getMostRecentBackupTimeInSecs *)

Definition getMostRecentBackupTimeInSecs (env : Env) (m : Manager)
    (format : string) (w : World) : Z * World :=
  let '((recentBackup, _, mostRecentBackupTime), w) :=
    getMostRecentBackup m format "" None w in
  let mostRecentBackupInSecs :=
    if recentBackup
    then match mostRecentBackupTime with
         | Some t => toSecsSinceEpoch (utcOffset env) t
         | None => 0
         end
    else 0 in
  (mostRecentBackupInSecs, w).

(** ** parseSettings *)

(** The body of the loop over [settings["backups"]]: one rule is read,
    its last backup looked up in the directory, and the rule returned to
    be pushed onto [_backupRules]. *)
Definition parseRule (env : Env) (m : Manager) (value : QJsonValue)
    (w : World) : BackupRule * World :=
  let obj := toObject value in
  let intervalVal := Qt.value "backupInterval" obj in
  let interval :=
    if isString intervalVal then toInt (jsonToString intervalVal)
    else jsonToInt intervalVal in
  let countVal := Qt.value "maxBackupVersions" obj in
  let count :=
    if isString countVal then toInt (jsonToString countVal)
    else jsonToInt countVal in
  let name := jsonToString (Qt.value "Name" obj) in
  let format := jsonToString (Qt.value "format" obj) in
  (* format = name.replace(" ", "_").toLower() + "-";
     QString::replace changes [name] itself and returns it. *)
  let name := replaceChar " " "_" name in
  let format := toLower name ++ "-" in
  let w := emit (RuleName name) w in
  let w := emit (RuleFormat format) w in
  let w := emit (RuleInterval interval) w in
  let w := emit (RuleCount count) w in
  let newRule := mkBackupRule name interval format count 0 in
  let '(secs, w) := getMostRecentBackupTimeInSecs env m format w in
  let newRule := setLastBackupSeconds secs newRule in
  if 0 <? lastBackupSeconds newRule then
    let '(now, w) := currentSecsSinceEpoch env w in
    let sinceLastBackup := now - lastBackupSeconds newRule in
    (newRule, emit (RuleLastBackupAgo sinceLastBackup) w)
  else
    (newRule, emit RuleLastBackupNever w).

Fixpoint parseRules (env : Env) (m : Manager) (backupRules : list QJsonValue)
    (w : World) : Manager * World :=
  match backupRules with
  | [] => (m, w)
  | value :: rest =>
      let '(newRule, w) := parseRule env m value w in
      parseRules env (setBackupRules (_backupRules m ++ [newRule]) m) rest w
  end.

Definition parseSettings (env : Env) (m : Manager) (settings : QJsonObject)
    (w : World) : Manager * World :=
  let backups := Qt.value "backups" settings in
  let w := emit (SettingsDump (isArray backups)) w in
  if isArray backups then
    let w := emit BackupRulesHeader w in
    parseRules env m (toArray backups) w
  else
    (m, emit BackupRulesNone w).

(** ** The constructor *)

Definition create (env : Env) (backupDirectory : string)
    (settings : QJsonObject) (w : World) : Manager * World :=
  let w := mkpath env w in
  parseSettings env (mkManager backupDirectory [] []) settings w.

(** ** removeOldBackupVersions *)

(** The [for] loop: [toDelete] is [matchingFiles[0 .. backupsToDelete-1]]. *)
Fixpoint removeFiles (env : Env) (m : Manager) (toDelete : list string)
    (w : World) : World :=
  match toDelete with
  | [] => w
  | f :: rest =>
      let fileInfo := filePath m f in
      let w :=
        if removeSucceeds env fileInfo
        then emit (RemovedOldBackup fileInfo) (unlink f w)
        else emit (FailedToRemoveOldBackup fileInfo) w in
      removeFiles env m rest w
  end.

Definition removeOldBackupVersions (env : Env) (m : Manager)
    (rule : BackupRule) (w : World) : World :=
  if dirExists w && (0 <? maxBackupVersions rule) then
    let w := emit (RollingOldVersions (name rule)) w in
    let matchingFiles :=
      entryInfoList (extensionFormat rule ++ "*.zip") (files w) in
    let backupsToDelete :=
      Z.of_nat (List.length matchingFiles) - maxBackupVersions rule in
    let w :=
      removeFiles env m (firstn (Z.to_nat backupsToDelete) matchingFiles) w in
    emit DoneRolling w
  else
    emit (NoNeedToRoll (name rule) (maxBackupVersions rule)) w.

(** ** backup *)

(** [for (auto& handler : _backupHandlers) handler.createBackup(zip)]. *)
Fixpoint createBackups (handlers : list BackupHandler) (zipName : string)
    (zipIsOpen : bool) (w : World) : World :=
  match handlers with
  | [] => w
  | handler :: rest =>
      createBackups rest zipName zipIsOpen
        (emit (CreateBackupCall handler zipName zipIsOpen) w)
  end.

(** The body of the loop over [_backupRules]; the rule is a reference
    into the list, so the changed rule is returned. *)
Definition backupRule (env : Env) (m : Manager) (nowSeconds : Z)
    (rule : BackupRule) (w : World) : BackupRule * World :=
  let secondsSinceLastBackup := nowSeconds - lastBackupSeconds rule in
  let w := emit (CheckingRule (name rule) secondsSinceLastBackup
                              (intervalSeconds rule)) w in
  if intervalSeconds rule <? secondsSinceLastBackup then
    let w := emit (DoingBackupNow (name rule) secondsSinceLastBackup
                                  (intervalSeconds rule)) w in
    let '(stamp, w) := currentDateTime env w in
    let timestamp := toString stamp in
    let fileName := "backup-" ++ extensionFormat rule ++ timestamp ++ ".zip" in
    let zipName := _backupDirectory m ++ "/" ++ fileName in
    let '(opened, w) := zipOpen env zipName fileName w in
    let w :=
      if negb opened
      then emit (ArchiveOpenError zipName) (emit (CouldNotOpenArchive zipName) w)
      else w in
    let w := createBackups (_backupHandlers m) zipName opened w in
    (* zip.close() *)
    let w := emit (CreatedBackup fileName) w in
    let rule := setLastBackupSeconds nowSeconds rule in
    let w := removeOldBackupVersions env m rule w in
    (rule, w)
  else
    (rule, emit (BackupNotNeeded (name rule)) w).

Fixpoint backupRules (env : Env) (m : Manager) (nowSeconds : Z)
    (rules : list BackupRule) (w : World) : list BackupRule * World :=
  match rules with
  | [] => ([], w)
  | rule :: rest =>
      let '(rule', w) := backupRule env m nowSeconds rule w in
      let '(rest', w) := backupRules env m nowSeconds rest w in
      (rule' :: rest', w)
  end.

Definition backup (env : Env) (m : Manager) (w : World) : Manager * World :=
  let '(nowDateTime, w) := currentDateTime env w in
  let nowSeconds := toSecsSinceEpoch (utcOffset env) nowDateTime in
  let '(rules, w) := backupRules env m nowSeconds (_backupRules m) w in
  (setBackupRules rules m, w).

(** ** persist *)

Definition lockFileName : string := "running.lock".

(** The result of the final [remove] is discarded by the code; whether
    the marker goes is decided by the environment as for any other
    removal. *)
Definition persist (env : Env) (m : Manager) (w : World) : Manager * World :=
  let w := mkpath env w in
  let lockFilePath := _backupDirectory m ++ "/" ++ lockFileName in
  (* std::ofstream lockFile(...); lockFile.is_open() *)
  match directory w with
  | Some fs =>
      if lockFileOpens env then
        let w := setDirectory (Some (addFile lockFileName fs)) w in
        let '(m, w) := backup env m w in
        (* lockFile.close(); remove(lockFileName) *)
        if removeSucceeds env lockFilePath
        then (m, unlink lockFileName w)
        else (m, w)
      else (m, w)
  | None => (m, w)
  end.

(** ** aboutToFinish *)

Definition aboutToFinish (env : Env) (m : Manager) (w : World)
  : Manager * World :=
  persist env m (emit PersistAboutToFinish w).

(** ** load and setup *)

(** The outcome of the two opens [load] tests, by path. *)
Record LoadEnv : Type := mkLoadEnv {
  fileOpensReadOnly : string -> bool;
  zipOpensUnzip : string -> bool
}.

(** What [load] does that can be seen: its [qCritical] lines and its
    calls of the handlers.  It changes nothing in the directory. *)
Inductive LoadEvent : Set :=
| CouldNotOpenFile (path : string)
| FileErrorString (path : string)
| CouldNotOpenBackupArchive (path : string)
| ZipErrorCode (path : string)
| LoadBackupCall (handler : BackupHandler) (path : string).

(** [for (auto& handler : _backupHandlers) handler.loadBackup(zip)]. *)
Fixpoint loadBackups (handlers : list BackupHandler) (path : string)
    (trace : list LoadEvent) : list LoadEvent :=
  match handlers with
  | [] => trace
  | handler :: rest =>
      loadBackups rest path (trace ++ [LoadBackupCall handler path])
  end.

(** The loop over [matchingFiles]; each failed open ends the turn
    ([continue]). *)
Fixpoint loadFiles (lenv : LoadEnv) (m : Manager)
    (matchingFiles : list string) (trace : list LoadEvent)
  : list LoadEvent :=
  match matchingFiles with
  | [] => trace
  | file :: rest =>
      let path := filePath m file in
      if negb (fileOpensReadOnly lenv path) then
        loadFiles lenv m rest
          (trace ++ [CouldNotOpenFile path; FileErrorString path])
      else if negb (zipOpensUnzip lenv path) then
        loadFiles lenv m rest
          (trace ++ [CouldNotOpenBackupArchive path; ZipErrorCode path])
      else
        (* zip.close() *)
        loadFiles lenv m rest (loadBackups (_backupHandlers m) path trace)
  end.

Definition load (lenv : LoadEnv) (m : Manager) (w : World)
  : list LoadEvent :=
  if dirExists w then
    let matchingFiles := entryInfoList "backup-*.zip" (files w) in
    loadFiles lenv m matchingFiles []
  else [].

Definition setup (lenv : LoadEnv) (m : Manager) (w : World)
  : list LoadEvent :=
  load lenv m w.

(** ** consolidate *)


Inductive ConsolidateEvent : Set :=
| FailedToCreateFullBackup
| CouldNotOpenConsolidated (filePath : string)
| ConsolidatedZipError
| ConsolidateBackupCall (handler : BackupHandler) (copyFilePath : string).




(** ** process *)

(** The members of the class the poll loop uses: the manager above, the
    check interval in milliseconds and the time of the last check in
    microseconds. *)
Record Scheduler : Set := mkScheduler {
  manager : Manager;
  _persistInterval : Z;
  _lastCheck : Z
}.

Definition DEFAULT_PERSIST_INTERVAL : Z := 1000 * 30.

(** One turn of the poll loop.  [stillRunning] and [stillRunningAfter]
    are the two answers of [isStillRunning()], [usecTimestampNow] the
    reading of the microsecond clock after the sleep. *)
Definition process (env : Env) (stillRunning stillRunningAfter : bool)
    (usecTimestampNow : Z) (s : Scheduler) (w : World)
  : bool * Scheduler * World :=
  if stillRunning then
    let MSECS_TO_USECS := 1000 in
    let now := usecTimestampNow in
    let sinceLastSave := now - _lastCheck s in
    let intervalToCheck := _persistInterval s * MSECS_TO_USECS in
    if intervalToCheck <? sinceLastSave then
      let '(m, w) := persist env (manager s) w in
      (stillRunningAfter, mkScheduler m (_persistInterval s) now, w)
    else (stillRunningAfter, s, w)
  else (stillRunningAfter, s, w).

End DomainContentBackupManager.

(* ================================================================== *)
(** * AnimNode *)
(* ================================================================== *)

(** [libraries/animation/src/AnimNode.h]. *)
Module AnimNode.

Inductive Type_ : Set := ClipType | NumTypes.

(** A [std::shared_ptr<AnimNode>], known by the address it holds:
    [std::find] compares the pointers. *)
Definition NodePtr : Set := nat.

Record AnimNode : Set := mkAnimNode {
  _id : string;
  _type : Type_;
  _children : list NodePtr
}.

Definition getID (n : AnimNode) : string := _id n.

Definition getType (n : AnimNode) : Type_ := _type n.

Definition addChild (child : NodePtr) (n : AnimNode) : AnimNode :=
  mkAnimNode (_id n) (_type n) (_children n ++ [child]).

(** [std::find] then [erase]: the first child equal to [child] goes. *)
Fixpoint eraseFirst (child : NodePtr) (children : list NodePtr)
  : list NodePtr :=
  match children with
  | [] => []
  | c :: rest =>
      if Nat.eqb c child then rest else c :: eraseFirst child rest
  end.

Definition removeChild (child : NodePtr) (n : AnimNode) : AnimNode :=
  mkAnimNode (_id n) (_type n) (eraseFirst child (_children n)).

Definition getChildCount (n : AnimNode) : Z :=
  Z.of_nat (List.length (_children n)).

(** [None] where the [assert] fails. *)
Definition getChild (i : Z) (n : AnimNode) : option NodePtr :=
  if (0 <=? i) && (i <? Z.of_nat (List.length (_children n)))
  then nth_error (_children n) (Z.to_nat i)
  else None.

End AnimNode.

(* ================================================================== *)
(** * Part 3. Properties *)
(* ================================================================== *)

Import Qt DomainContentBackupManager.

(** ** Vocabulary of the specification *)

(** The name the Backup Executor gives the archive of a rule with the
    given [filenamePrefix], written at [stamp]. *)
Definition archiveName (prefix : string) (stamp : DateTime) : string :=
  "backup-" ++ prefix ++ toString stamp ++ ".zip".

(** The firing condition [now - lastBackupEpochSeconds > intervalSeconds]. *)
Definition fires (now : Z) (rule : BackupRule) : bool :=
  intervalSeconds rule <? now - lastBackupSeconds rule.

(** The timestamp the Scanner reads from a file name for a prefix: [None]
    when the name does not match the anchored pattern or the text is not
    a valid date and time. *)
Definition parsedTime (format fileName : string) : option DateTime :=
  match formatRE_cap1 format fileName with
  | Some datetime => fromString datetime
  | None => None
  end.

Definition hasParsedTime (format fileName : string) : bool :=
  match parsedTime format fileName with Some _ => true | None => false end.

(** The entries the Scanner can choose from: they pass the name filter,
    match the pattern and carry a valid timestamp. *)
Definition candidates (format : string) (fs : list string) : list string :=
  filter (hasParsedTime format) (dirIteratorEntries (format ++ "*.zip") fs).

(** The files a rule's retention run looks at. *)
Definition matching (rule : BackupRule) (fs : list string) : list string :=
  filter (wildcardMatch (extensionFormat rule ++ "*.zip")) fs.

(** The files a retention run tries to remove: the first
    [length - maxBackupVersions] of the matching files in name order. *)
Definition attempted (rule : BackupRule) (fs : list string) : list string :=
  let sorted := entryInfoList (extensionFormat rule ++ "*.zip") fs in
  firstn (Z.to_nat (Z.of_nat (List.length sorted) - maxBackupVersions rule))
         sorted.

(** Whether [f] is still there after an attempt to remove [toDelete]. *)
Definition survives (env : Env) (m : Manager) (toDelete : list string)
    (f : string) : bool :=
  negb (existsb (String.eqb f) toDelete && removeSucceeds env (filePath m f)).

(** Whether the archive of a firing rule opens for writing: the directory
    must exist and the open must succeed. *)
Definition archiveOpens (env : Env) (m : Manager) (rule : BackupRule)
    (w : World) : bool :=
  dirExists w
  && zipOpens env
       (filePath m (archiveName (extensionFormat rule) (clock env (ticks w)))).

(** The lines a firing rule writes and the handler calls it makes, up to
    the closing of the archive. *)
Definition firingOutput (env : Env) (m : Manager) (now : Z)
    (rule : BackupRule) (w : World) : list Event :=
  let fileName := archiveName (extensionFormat rule) (clock env (ticks w)) in
  let zipName := filePath m fileName in
  let opened := archiveOpens env m rule w in
  ([CheckingRule (name rule) (now - lastBackupSeconds rule)
                 (intervalSeconds rule);
    DoingBackupNow (name rule) (now - lastBackupSeconds rule)
                   (intervalSeconds rule)]
   ++ (if opened then []
       else [CouldNotOpenArchive zipName; ArchiveOpenError zipName])
   ++ map (fun h => CreateBackupCall h zipName opened) (_backupHandlers m)
   ++ [CreatedBackup fileName])%list.

(** The world of a firing rule when its archive has been closed, before
    the Retention Enforcer runs. *)
Definition archiveClosed (env : Env) (m : Manager) (now : Z)
    (rule : BackupRule) (w : World) : World :=
  let fileName := archiveName (extensionFormat rule) (clock env (ticks w)) in
  mkWorld (if archiveOpens env m rule w
           then Some (addFile fileName (files w)) else directory w)
          (S (ticks w))
          (output w ++ firingOutput env m now rule w).

(** The [Name] a rule object of the settings configures. *)
Definition configuredName (rule : QJsonValue) : string :=
  jsonToString (Qt.value "Name" (toObject rule)).

(** The prefix the specification derives from a configured name. *)
Definition derivedPrefix (configured : string) : string :=
  toLower (replaceChar " " "_" configured) ++ "-".

(** The words of the specification for the prefix, one character at a
    time and without the functions of [Qt]: the small letter of a capital
    Latin letter, by the table of the alphabet. *)
Definition specLowercase (c : ascii) : ascii :=
  match c with
  | "A" => "a"
  | "B" => "b"
  | "C" => "c"
  | "D" => "d"
  | "E" => "e"
  | "F" => "f"
  | "G" => "g"
  | "H" => "h"
  | "I" => "i"
  | "J" => "j"
  | "K" => "k"
  | "L" => "l"
  | "M" => "m"
  | "N" => "n"
  | "O" => "o"
  | "P" => "p"
  | "Q" => "q"
  | "R" => "r"
  | "S" => "s"
  | "T" => "t"
  | "U" => "u"
  | "V" => "v"
  | "W" => "w"
  | "X" => "x"
  | "Y" => "y"
  | "Z" => "z"
  | _ => c
  end%char.

Definition isCapital (c : ascii) : bool :=
  match c with
  | "A" | "B" | "C" | "D" | "E" | "F" | "G" | "H" | "I" | "J" | "K" | "L" | "M" | "N" | "O" | "P" | "Q" | "R" | "S" | "T" | "U" | "V" | "W" | "X" | "Y" | "Z" => true
  | _ => false
  end%char.

(** A space becomes an underscore, then the character is lowercased. *)
Definition specPrefixChar (c : ascii) : ascii :=
  specLowercase (if Ascii.eqb c " " then "_"%char else c).

(** "Name with every space replaced by an underscore, lowercased, with a
    trailing [-] separator appended". *)
Definition specPrefix (configured : string) : string :=
  string_of_list_ascii
    (map specPrefixChar (list_ascii_of_string configured) ++ ["-"%char]).

(** Some file exists in [w'] that did not exist in [w]. *)
Definition archiveCreated (w w' : World) : Prop :=
  exists f, In f (files w') /\ ~ In f (files w).

(** One step of a lexicographic comparison. *)
Definition lex (c : comparison) (rest : bool) : bool :=
  match c with Lt => true | Gt => false | Eq => rest end.

(** The order [QDir::Name] sorts by. *)
Definition nameLe (a b : string) : Prop := String.leb a b = true.


(** ** Concrete managers, worlds and environments *)

(** A manager without rules or handlers, enough to scan a directory. *)
Definition scanManager : Manager := mkManager "/var/backups" [] [].

(** A directory with three archives of the prefix [daily-], an archive
    with month 13, a file without timestamp and an archive of another
    prefix. *)
Definition scanWorld : World :=
  mkWorld (Some ["daily-2024-01-01_00-00-00.zip";
                 "daily-2024-13-01_00-00-00.zip";
                 "daily-notes.zip";
                 "weekly-2025-01-01_00-00-00.zip";
                 "daily-2024-06-01_00-00-00.zip";
                 "daily-2024-03-01_00-00-00.zip"]) 0 [].

(** An environment in which every file operation succeeds; the clock
    advances by two days every second reading, so that a cycle reads the
    same day twice and the next cycle is two days later. *)
Definition someEnv : Env :=
  mkEnv (fun n => mkDateTime 2024 1 (1 + 2 * (n / 2)) 0 0 0) 0
        true true (fun _ => true) (fun _ => true).

(** The backup directory exists and is empty. *)
Definition emptyWorld : World := mkWorld (Some []) 0 [].

Definition twoHandlers : Manager := mkManager "/var/backups" [1%nat; 2%nat] [].

Definition dailyRule : BackupRule := mkBackupRule "Daily" 86400 "daily-" 3 0.

(** An environment in which no archive opens and no file can be removed. *)
Definition failingEnv : Env :=
  mkEnv (fun n => mkDateTime 2024 1 (1 + 2 * (n / 2)) 0 0 0) 0
        true true (fun _ => false) (fun _ => false).

Definition dailyManager : Manager :=
  mkManager "/var/backups" [1%nat; 2%nat] [dailyRule].


(** The directory of the scenario: two archives as the executor names
    them for the rule [Daily]. *)
Definition juneWorld : World :=
  mkWorld (Some ["backup-daily-2024-01-01_00-00-00.zip";
                 "backup-daily-2024-06-01_00-00-00.zip"]) 0 [].

Definition dailySettings : QJsonObject :=
  [("backups",
    JArray [JObject [("Name", JString "Daily");
                     ("backupInterval", JDouble 86400 1);
                     ("maxBackupVersions", JDouble 3 1)]])].

(** The manager built from [dailySettings] over an empty directory, with
    two handlers registered. *)
Definition dailyStart : Manager * World :=
  let '(m, w) := create someEnv "/var/backups" dailySettings emptyWorld in
  (addBackupHandler 2%nat (addBackupHandler 1%nat m), w).

(** One backup cycle. *)
Definition cycle (mw : Manager * World) : Manager * World :=
  backup someEnv (fst mw) (snd mw).

Definition keepTwo : BackupRule := mkBackupRule "Daily" 86400 "daily-" 2 0.

(** Four files that match [daily-*.zip] and one that does not. *)
Definition retentionWorld : World :=
  mkWorld (Some ["daily-2024-01-05_00-00-00.zip";
                 "weekly-2024-01-01_00-00-00.zip";
                 "daily-2024-01-01_00-00-00.zip";
                 "daily-2024-01-03_00-00-00.zip";
                 "daily-2024-01-07_00-00-00.zip"]) 0 [].

(** ** Vocabulary of the further properties *)

Definition isLoadBackupCall (e : LoadEvent) : bool :=
  match e with LoadBackupCall _ _ => true | _ => false end.

(** Whether both opens of [load] succeed for a file of the directory. *)
Definition loadOpens (lenv : LoadEnv) (m : Manager) (f : string) : bool :=
  fileOpensReadOnly lenv (filePath m f) && zipOpensUnzip lenv (filePath m f).

(** The archives [load] hands to the handlers, in its order. *)
Definition replayed (lenv : LoadEnv) (m : Manager) (w : World)
  : list string :=
  filter (loadOpens lenv m) (entryInfoList "backup-*.zip" (files w)).

(** The calls [load] makes for one archive. *)
Definition loadCallsFor (m : Manager) (f : string) : list LoadEvent :=
  map (fun h => LoadBackupCall h (filePath m f)) (_backupHandlers m).

(** What one turn of the loop of [load] adds to the trace. *)
Definition loadFileEvents (lenv : LoadEnv) (m : Manager) (f : string)
  : list LoadEvent :=
  if negb (fileOpensReadOnly lenv (filePath m f))
  then [CouldNotOpenFile (filePath m f); FileErrorString (filePath m f)]
  else if negb (zipOpensUnzip lenv (filePath m f))
  then [CouldNotOpenBackupArchive (filePath m f); ZipErrorCode (filePath m f)]
  else loadCallsFor m f.

(** A rule after a cycle started at [now]. *)
Definition stamped (now : Z) (rule : BackupRule) : BackupRule :=
  if fires now rule then setLastBackupSeconds now rule else rule.

(** Whether a file name ends in [.zip], letters compared without case. *)
Definition hasZipSuffix (f : string) : bool :=
  (4 <=? String.length f)%nat
  && String.eqb (toLower (substring (String.length f - 4) 4 f)) ".zip".

(** Whether every character is a decimal digit. *)
Definition allDigits (s : string) : bool :=
  forallb isDigit (list_ascii_of_string s).

Definition isConsolidateCall (e : ConsolidateEvent) : bool :=
  match e with ConsolidateBackupCall _ _ => true | _ => false end.

(** ** Further concrete environments, worlds and settings *)

(** Every file and every archive opens for reading. *)
Definition openLoadEnv : LoadEnv := mkLoadEnv (fun _ => true) (fun _ => true).

(** An environment whose clock stands still. *)
Definition frozenEnv : Env :=
  mkEnv (fun _ => mkDateTime 2024 1 1 0 0 0) 0
        true true (fun _ => true) (fun _ => true).

(** A directory with a file that is no archive beside an archive. *)
Definition mixedWorld : World :=
  mkWorld (Some ["notes.txt"; "backup-daily-2024-01-01_00-00-00.zip"]) 0 [].

(** The directory of [scanWorld], listed in the opposite order. *)
Definition reversedScanWorld : World :=
  mkWorld (Some (List.rev (files scanWorld))) 0 [].


(** A scheduler with the default interval, last checked at time 0. *)
Definition dailyScheduler : Scheduler :=
  mkScheduler dailyManager DEFAULT_PERSIST_INTERVAL 0.

Definition nameOnly : QJsonValue := JObject [("Name", JString "Daily")].

Definition formatOnly : QJsonValue := JObject [("format", JString "%1")].

Definition intervalAsString : QJsonValue :=
  JObject [("backupInterval", JString "3600")].

Definition intervalAsNumber : QJsonValue :=
  JObject [("backupInterval", JDouble 3600 1)].

Definition noon : DateTime := mkDateTime 2024 6 1 12 30 45.

(** ** The order of date-times *)

Section DateTimeOrder.

Local Lemma ltb_lex a b :
  Qt.ltb a b =
  lex (year a ?= year b)%nat (lex (month a ?= month b)%nat
    (lex (day a ?= day b)%nat (lex (hour a ?= hour b)%nat
      (lex (minute a ?= minute b)%nat (second a <? second b)%nat)))).
Proof.
  unfold Qt.ltb, lex.
  repeat match goal with |- context [(?x ?= ?y)%nat] =>
    destruct (x ?= y)%nat eqn:? end; reflexivity.
Qed.

Local Lemma lex_trans x y z r1 r2 r3 :
  (r1 = true -> r2 = true -> r3 = true) ->
  lex (x ?= y)%nat r1 = true -> lex (y ?= z)%nat r2 = true ->
  lex (x ?= z)%nat r3 = true.
Proof.
  unfold lex.
  destruct (Nat.compare_spec x y), (Nat.compare_spec y z),
    (Nat.compare_spec x z); try lia; auto; discriminate.
Qed.

Local Lemma lex_asym x y r1 r2 :
  (r1 = true -> r2 = true -> False) ->
  lex (x ?= y)%nat r1 = true -> lex (y ?= x)%nat r2 = true -> False.
Proof.
  unfold lex.
  destruct (Nat.compare_spec x y), (Nat.compare_spec y x);
    try lia; auto; discriminate.
Qed.

Local Lemma lex_total x y r1 r2 (P : Prop) :
  (x = y -> r1 = false -> r2 = false -> P) ->
  lex (x ?= y)%nat r1 = false -> lex (y ?= x)%nat r2 = false -> P.
Proof.
  unfold lex.
  destruct (Nat.compare_spec x y), (Nat.compare_spec y x);
    try lia; auto; discriminate.
Qed.

Lemma ltb_trans a b c :
  Qt.ltb a b = true -> Qt.ltb b c = true -> Qt.ltb a c = true.
Proof.
  rewrite !ltb_lex.
  repeat apply lex_trans.
  rewrite !Nat.ltb_lt. lia.
Qed.

Lemma ltb_asym a b : Qt.ltb a b = true -> Qt.ltb b a = true -> False.
Proof.
  rewrite !ltb_lex.
  repeat apply lex_asym.
  rewrite !Nat.ltb_lt. lia.
Qed.

Lemma ltb_irrefl a : Qt.ltb a a = false.
Proof.
  destruct (Qt.ltb a a) eqn:E; [exfalso; eauto using ltb_asym | reflexivity].
Qed.

Lemma ltb_total a b :
  Qt.ltb a b = false -> Qt.ltb b a = false -> a = b.
Proof.
  rewrite !ltb_lex. destruct a, b; simpl.
  repeat (apply lex_total; intros ->).
  rewrite !Nat.ltb_ge. intros. f_equal; lia.
Qed.

(** [a <= c] follows from [a <= b] and [b <= c]. *)
Lemma leb_trans a b c :
  Qt.ltb b a = false -> Qt.ltb c b = false -> Qt.ltb c a = false.
Proof.
  intros Hab Hbc. destruct (Qt.ltb c a) eqn:Hca; [ | reflexivity].
  destruct (Qt.ltb a b) eqn:Hab'.
  - rewrite (ltb_trans _ _ _ Hca Hab') in Hbc. discriminate.
  - rewrite (ltb_total _ _ Hab' Hab) in Hca. congruence.
Qed.

End DateTimeOrder.

(** ** Lists *)

Lemma filter_all_true {A : Type} (p : A -> bool) (l : list A) :
  (forall x, In x l -> p x = true) -> filter p l = l.
Proof.
  induction l as [ | x l IH]; simpl; intros H; [reflexivity | ].
  rewrite (H x (or_introl eq_refl)). f_equal. apply IH. intros; apply H; now right.
Qed.

Lemma filter_all_false {A : Type} (p : A -> bool) (l : list A) :
  (forall x, In x l -> p x = false) -> filter p l = [].
Proof.
  induction l as [ | x l IH]; simpl; intros H; [reflexivity | ].
  rewrite (H x (or_introl eq_refl)). apply IH. intros; apply H; now right.
Qed.

Lemma NoDup_map_eq {A B : Type} (h : A -> B) (l : list A) x y :
  NoDup (map h l) -> In x l -> In y l -> h x = h y -> x = y.
Proof.
  induction l as [ | a l IH]; simpl; [tauto | ].
  intros Hnd Hx Hy Heq. inversion Hnd as [ | ? ? Hnotin Hnd']; subst.
  destruct Hx as [-> | Hx], Hy as [-> | Hy]; auto.
  - exfalso. apply Hnotin. rewrite Heq. now apply in_map.
  - exfalso. apply Hnotin. rewrite <- Heq. now apply in_map.
Qed.

(** ** The Archive Index Scanner *)

Section Scanner.

Variable m : Manager.
Variable format : string.

(** What one turn of the loop does to the three locals. *)
Lemma scanEntry_best fileName best w :
  fst (scanEntry m format fileName best w) =
  match parsedTime format fileName with
  | Some createdAt =>
      if gtNullable createdAt (bestBackupFileTime best)
      then mkBestBackup true (filePath m fileName) (Some createdAt)
      else best
  | None => best
  end.
Proof.
  unfold scanEntry, parsedTime.
  destruct (formatRE_cap1 format fileName) as [datetime | ]; [ | reflexivity].
  destruct (fromString datetime) as [createdAt | ]; [ | reflexivity].
  now destruct (gtNullable createdAt (bestBackupFileTime best)).
Qed.

(** The scan only adds lines to the debug output. *)
Lemma scanEntries_frame entries : forall best w,
  directory (snd (scanEntries m format entries best w)) = directory w /\
  ticks (snd (scanEntries m format entries best w)) = ticks w.
Proof.
  induction entries as [ | f rest IH]; intros best w; simpl; [now split | ].
  destruct (scanEntry m format f best w) as [best' w'] eqn:E.
  destruct (IH best' w') as [Hd Ht]. rewrite Hd, Ht.
  unfold scanEntry in E.
  destruct (formatRE_cap1 format f) as [datetime | ];
    [destruct (fromString datetime) as [createdAt | ];
     [destruct (gtNullable createdAt (bestBackupFileTime best)) | ] | ];
    inversion E; subst; now split.
Qed.

(** Entries without a valid timestamp are passed over: the locals end as
    if those entries were not in the directory. *)
Lemma scanEntries_skip entries : forall best w w',
  fst (scanEntries m format entries best w) =
  fst (scanEntries m format (filter (hasParsedTime format) entries) best w').
Proof.
  induction entries as [ | f rest IH]; intros best w w'; simpl; [reflexivity | ].
  destruct (scanEntry m format f best w) as [best1 w1] eqn:E1.
  pose proof (scanEntry_best f best w) as H1. rewrite E1 in H1. simpl in H1.
  unfold hasParsedTime at 1.
  destruct (parsedTime format f) as [createdAt | ] eqn:Ep.
  - simpl. destruct (scanEntry m format f best w') as [best2 w2] eqn:E2.
    pose proof (scanEntry_best f best w') as H2. rewrite E2, Ep in H2.
    simpl in H2. rewrite H1, <- H2. apply IH.
  - rewrite H1. apply IH.
Qed.

(** The locals after a scan: the time kept is not earlier than the time
    of any entry seen nor than the time kept before, and what is kept is
    either what was kept before or one of the entries. *)
Lemma scanEntries_max entries : forall best w,
  let r := fst (scanEntries m format entries best w) in
  (forall g u, In g entries -> parsedTime format g = Some u ->
     exists t, bestBackupFileTime r = Some t /\ Qt.ltb t u = false) /\
  (forall tb, bestBackupFileTime best = Some tb ->
     exists t, bestBackupFileTime r = Some t /\ Qt.ltb t tb = false) /\
  (r = best \/
   exists f t, In f entries /\ parsedTime format f = Some t /\
     r = mkBestBackup true (filePath m f) (Some t)).
Proof.
  induction entries as [ | f rest IH]; intros best w; simpl.
  - repeat split.
    + intros g u [].
    + intros tb Hb. exists tb. split; [exact Hb | apply ltb_irrefl].
    + now left.
  - destruct (scanEntry m format f best w) as [best1 w1] eqn:E1.
    pose proof (scanEntry_best f best w) as H1. rewrite E1 in H1. simpl in H1.
    destruct (IH best1 w1) as (IHa & IHb & IHc).
    set (r := fst (scanEntries m format rest best1 w1)) in *.
    repeat split.
    + intros g u [<- | Hg] Hu; [ | eauto].
      rewrite Hu in H1.
      destruct (gtNullable u (bestBackupFileTime best)) eqn:Hgt.
      * apply IHb. now rewrite H1.
      * unfold gtNullable in Hgt.
        destruct (bestBackupFileTime best) as [tb | ] eqn:Hb; [ | discriminate].
        destruct (IHb tb) as (t & Ht & Hle); [now rewrite H1 | ].
        exists t. split; [exact Ht | ]. eapply leb_trans; eassumption.
    + intros tb Hb.
      destruct (parsedTime format f) as [u | ]; [ | rewrite H1 in *; eauto].
      rewrite Hb in H1. simpl in H1.
      destruct (Qt.ltb tb u) eqn:Hlt; [ | rewrite H1 in *; eauto].
      destruct (IHb u) as (t & Ht & Hle); [now rewrite H1 | ].
      exists t. split; [exact Ht | ].
      destruct (Qt.ltb t tb) eqn:Hc; [ | reflexivity].
      rewrite (ltb_trans _ _ _ Hc Hlt) in Hle. discriminate.
    + destruct IHc as [Hr | (g & t & Hg & Ht & Hr)].
      * rewrite Hr, H1.
        destruct (parsedTime format f) as [u | ] eqn:Hu; [ | now left].
        destruct (gtNullable u (bestBackupFileTime best)); [ | now left].
        right. exists f, u. auto.
      * right. exists g, t. auto.
Qed.

End Scanner.

Lemma getMostRecentBackup_result m format o1 o2 w :
  fst (getMostRecentBackup m format o1 o2 w) =
  let best :=
    fst (scanEntries m format (candidates format (files w))
           (mkBestBackup false "" None) w) in
  if bestBackupFound best
  then (true, bestBackupFile best, bestBackupFileTime best)
  else (false, o1, o2).
Proof.
  unfold getMostRecentBackup, candidates.
  rewrite <- (scanEntries_skip m format _ _ w w).
  destruct (scanEntries m format _ _ w) as [best w']. simpl.
  now destruct (bestBackupFound best).
Qed.

Lemma candidates_idempotent format fs :
  candidates format (candidates format fs) = candidates format fs.
Proof.
  unfold candidates, dirIteratorEntries.
  rewrite (filter_all_true (wildcardMatch _)).
  - apply filter_all_true. intros x Hx. now apply filter_In in Hx.
  - intros x Hx. apply filter_In in Hx. destruct Hx as [Hx _].
    now apply filter_In in Hx.
Qed.

(** C7. Scanner selection.  Let the candidates be the directory entries
    that pass the name filter of the prefix, match the anchored pattern
    and carry a valid timestamp.  (1) Entries that are not candidates are
    skipped and the scan goes on: the result is the one the Scanner gives
    on a directory holding only the candidates.  (2) With no candidate the
    Scanner returns false.  (3) With candidates of pairwise distinct
    timestamps the Scanner returns true with exactly the candidate whose
    timestamp is later than that of every other candidate, and reports
    that timestamp. *)
Theorem scanner_returns_latest_candidate m format o1 o2 w :
  let cs := candidates format (files w) in
  fst (getMostRecentBackup m format o1 o2 w) =
  fst (getMostRecentBackup m format o1 o2 (setDirectory (Some cs) w))
  /\ (cs = [] -> fst (fst (fst (getMostRecentBackup m format o1 o2 w))) = false)
  /\ (cs <> [] -> NoDup (map (parsedTime format) cs) ->
      exists f t,
        In f cs /\ parsedTime format f = Some t /\
        (forall g u, In g cs -> parsedTime format g = Some u -> g <> f ->
           Qt.ltb u t = true) /\
        fst (getMostRecentBackup m format o1 o2 w) =
        (true, filePath m f, Some t)).
Proof.
  intros cs. repeat split.
  - rewrite !getMostRecentBackup_result.
    change (files (setDirectory (Some cs) w)) with cs.
    subst cs. rewrite candidates_idempotent.
    set (cs := candidates format (files w)).
    rewrite (scanEntries_skip m format cs _ (setDirectory (Some cs) w) w).
    rewrite <- (scanEntries_skip m format cs _ w w).
    reflexivity.
  - intros Hnil. rewrite getMostRecentBackup_result. fold cs. rewrite Hnil.
    reflexivity.
  - intros Hne Hnd. rewrite getMostRecentBackup_result. fold cs. simpl.
    destruct (scanEntries_max m format cs (mkBestBackup false "" None) w)
      as (Ha & _ & Hc).
    set (r := fst (scanEntries m format cs (mkBestBackup false "" None) w)) in *.
    assert (Htimes : forall g, In g cs -> exists u, parsedTime format g = Some u).
    { intros g Hg. apply filter_In in Hg. destruct Hg as [_ Hg].
      unfold hasParsedTime in Hg.
      destruct (parsedTime format g) as [u | ]; [eauto | discriminate]. }
    destruct cs as [ | g0 cs'] eqn:Ecs; [congruence | ].
    destruct (Htimes g0 (or_introl eq_refl)) as (u0 & Hu0).
    destruct (Ha g0 u0 (or_introl eq_refl) Hu0) as (t0 & Ht0 & _).
    destruct Hc as [Hr | (f & t & Hf & Ht & Hr)].
    { rewrite Hr in Ht0. discriminate. }
    exists f, t. rewrite Hr. simpl. repeat split; auto.
    intros g u Hg Hu Hgf.
    destruct (Ha g u Hg Hu) as (t' & Ht' & Hle).
    rewrite Hr in Ht'. simpl in Ht'. injection Ht' as <-.
    destruct (Qt.ltb u t) eqn:Hlt; [reflexivity | exfalso].
    apply Hgf. eapply NoDup_map_eq; [exact Hnd | exact Hg | exact Hf | ].
    rewrite Hu, Ht. f_equal. now apply ltb_total.
Qed.

(** The theorem at a directory of six files, three of them candidates for
    the prefix [daily-]: the June archive is returned. *)
Lemma scanner_returns_latest_candidate_witness :
  candidates "daily-" (files scanWorld) <> [] /\
  NoDup (map (parsedTime "daily-") (candidates "daily-" (files scanWorld))) /\
  fst (getMostRecentBackup scanManager "daily-" "" None scanWorld) =
  (true, "/var/backups/daily-2024-06-01_00-00-00.zip",
   Some (mkDateTime 2024 6 1 0 0 0)).
Proof.
  assert (Hne : candidates "daily-" (files scanWorld) <> [])
    by (vm_compute; discriminate).
  assert (Hnd : NoDup (map (parsedTime "daily-")
                         (candidates "daily-" (files scanWorld)))).
  { vm_compute. repeat constructor; simpl; intuition discriminate. }
  split; [exact Hne | split; [exact Hnd | ]].
  destruct (scanner_returns_latest_candidate scanManager "daily-" "" None
              scanWorld) as (_ & _ & H).
  destruct (H Hne Hnd) as (f & t & _ & _ & _ & Hres).
  rewrite Hres. vm_compute in Hres. exact (eq_sym Hres).
Defined.

(** C10. When no directory entry passes the name filter, matches the
    anchored pattern and parses to a valid date and time, the Scanner
    returns false and hands back both reference parameters as they were
    passed; the directory and the clock are untouched too. *)
Theorem scanner_without_candidate_keeps_outputs m format o1 o2 w :
  (forall f, In f (files w) ->
     wildcardMatch (format ++ "*.zip") f = true ->
     parsedTime format f = None) ->
  fst (getMostRecentBackup m format o1 o2 w) = (false, o1, o2) /\
  directory (snd (getMostRecentBackup m format o1 o2 w)) = directory w /\
  ticks (snd (getMostRecentBackup m format o1 o2 w)) = ticks w.
Proof.
  intros Hnone. split.
  - rewrite getMostRecentBackup_result.
    assert (Hcs : candidates format (files w) = []).
    { unfold candidates, dirIteratorEntries. apply filter_all_false.
      intros f Hf. apply filter_In in Hf. destruct Hf as [Hin Hwm].
      unfold hasParsedTime. now rewrite (Hnone f Hin Hwm). }
    rewrite Hcs. reflexivity.
  - unfold getMostRecentBackup.
    pose proof (scanEntries_frame m format
                  (dirIteratorEntries (format ++ "*.zip") (files w))
                  (mkBestBackup false "" None) w) as Hfr.
    destruct (scanEntries m format _ _ w) as [best w']. simpl in Hfr.
    now destruct (bestBackupFound best).
Qed.

Lemma scanner_without_candidate_keeps_outputs_witness :
  fst (getMostRecentBackup scanManager "hourly-" "kept.zip"
         (Some (mkDateTime 2020 2 2 2 2 2)) scanWorld) =
  (false, "kept.zip", Some (mkDateTime 2020 2 2 2 2 2)).
Proof.
  apply (scanner_without_candidate_keeps_outputs scanManager "hourly-"
           "kept.zip" (Some (mkDateTime 2020 2 2 2 2 2)) scanWorld).
  intros f Hf. simpl in Hf.
  repeat (destruct Hf as [<- | Hf]; [vm_compute; intros; congruence | ]).
  destruct Hf.
Defined.

(** ** The Rule Store: parseSettings *)

Lemma parseRule_name env m v w :
  name (fst (parseRule env m v w)) = replaceChar " " "_" (configuredName v).
Proof.
  unfold parseRule, configuredName.
  destruct (getMostRecentBackupTimeInSecs env m _ _) as [secs w1].
  cbv zeta. destruct (0 <? _).
  - destruct (currentSecsSinceEpoch env w1). reflexivity.
  - reflexivity.
Qed.

Lemma parseRule_extensionFormat env m v w :
  extensionFormat (fst (parseRule env m v w)) =
  derivedPrefix (configuredName v).
Proof.
  unfold parseRule, configuredName, derivedPrefix.
  destruct (getMostRecentBackupTimeInSecs env m _ _) as [secs w1].
  cbv zeta. destruct (0 <? _).
  - destruct (currentSecsSinceEpoch env w1). reflexivity.
  - reflexivity.
Qed.

Lemma parseRules_extensionFormats env vs : forall m w,
  map extensionFormat (_backupRules (fst (parseRules env m vs w))) =
  (map extensionFormat (_backupRules m)
   ++ map (fun v => derivedPrefix (configuredName v)) vs)%list.
Proof.
  induction vs as [ | v vs IH]; intros m w; simpl.
  - now rewrite app_nil_r.
  - destruct (parseRule env m v w) as [newRule w1] eqn:E.
    rewrite IH. simpl. rewrite map_app, <- app_assoc. simpl.
    pose proof (parseRule_extensionFormat env m v w) as H.
    rewrite E in H. simpl in H. now rewrite H.
Qed.

Lemma replaceChar_changes (c d : ascii) (s : string) :
  c <> d -> contains c s = true -> replaceChar c d s <> s.
Proof.
  intros Hcd. induction s as [ | a s IH]; simpl; [discriminate | ].
  destruct (Ascii.eqb_spec a c) as [-> | Hac]; simpl.
  - intros _ Heq. injection Heq as Hd. congruence.
  - intros Hc Heq. injection Heq as Heq. now apply IH.
Qed.

Lemma toLowerChar_spec c : toLowerChar c = specLowercase c.
Proof. destruct c as [[] [] [] [] [] [] [] []]; reflexivity. Qed.

Lemma specPrefixChar_small c :
  Ascii.eqb (specPrefixChar c) " " = false
  /\ isCapital (specPrefixChar c) = false.
Proof. destruct c as [[] [] [] [] [] [] [] []]; split; reflexivity. Qed.

(** The prefix the code derives is the prefix of the specification. *)
Lemma derivedPrefix_spec configured :
  derivedPrefix configured = specPrefix configured.
Proof.
  unfold derivedPrefix, specPrefix.
  induction configured as [ | c s IH]; [reflexivity | ].
  cbn [replaceChar toLower String.append list_ascii_of_string map app
       string_of_list_ascii].
  rewrite IH. f_equal. unfold specPrefixChar. apply toLowerChar_spec.
Qed.

Lemma specPrefix_shape configured :
  contains " " (specPrefix configured) = false
  /\ forallb (fun c => negb (isCapital c))
       (list_ascii_of_string (specPrefix configured)) = true
  /\ String.length (specPrefix configured)
     = S (String.length configured).
Proof.
  unfold specPrefix.
  induction configured as [ | c s (IH1 & IH2 & IH3)]; [now repeat split | ].
  cbn [list_ascii_of_string map app string_of_list_ascii contains forallb
       String.length].
  destruct (specPrefixChar_small c) as (Hs & Hc).
  rewrite Hs, Hc, IH1, IH2, IH3. now repeat split.
Qed.

(** C8. Prefix derivation.  The prefix stored for a configured rule is
    the configured Name with every space replaced by an underscore, then
    lowercased, then followed by [-]: it is the prefix the words of the
    specification give, character by character ([specPrefix]); it holds
    no space and no capital Latin letter and is one character longer
    than the Name; for the Name [My Daily RULE] it is [my_daily_rule-].
    A [format] member of the rule object changes nothing; and
    [parseSettings] appends to the rule list exactly the prefixes so
    derived from the names of the configured rules, in their order. *)
Theorem prefix_is_derived_from_name_only env m w :
  (forall v,
     extensionFormat (fst (parseRule env m v w)) =
     toLower (replaceChar " " "_" (configuredName v)) ++ "-")
  /\ (forall v,
        extensionFormat (fst (parseRule env m v w))
        = specPrefix (configuredName v)
        /\ contains " " (extensionFormat (fst (parseRule env m v w))) = false
        /\ forallb (fun c => negb (isCapital c))
             (list_ascii_of_string
                (extensionFormat (fst (parseRule env m v w)))) = true
        /\ String.length (extensionFormat (fst (parseRule env m v w)))
           = S (String.length (configuredName v)))
  /\ extensionFormat
       (fst (parseRule env m
               (JObject [("format", JString "%1-%2");
                         ("Name", JString "My Daily RULE")]) w))
     = "my_daily_rule-"
  /\ (forall members fmt,
        extensionFormat
          (fst (parseRule env m (JObject (("format", fmt) :: members)) w)) =
        extensionFormat (fst (parseRule env m (JObject members) w)))
  /\ (forall settings,
        map extensionFormat
          (_backupRules (fst (parseSettings env m settings w))) =
        (map extensionFormat (_backupRules m)
         ++ map (fun v => specPrefix (configuredName v))
              (toArray (Qt.value "backups" settings)))%list).
Proof.
  split; [ | split; [ | split; [ | split]]].
  - intros v. apply parseRule_extensionFormat.
  - intros v. rewrite parseRule_extensionFormat, derivedPrefix_spec.
    split; [reflexivity | apply specPrefix_shape].
  - rewrite parseRule_extensionFormat. reflexivity.
  - intros members fmt. rewrite !parseRule_extensionFormat. reflexivity.
  - intros settings.
    rewrite (map_ext (fun v => specPrefix (configuredName v))
                     (fun v => derivedPrefix (configuredName v)))
      by (intros v; symmetry; apply derivedPrefix_spec).
    unfold parseSettings.
    destruct (Qt.value "backups" settings) as [ | | b | n d | s | items | ms];
      simpl; try now rewrite app_nil_r.
    apply parseRules_extensionFormats.
Qed.

(** C9. The name stored in a rule is the configured Name with each space
    replaced by an underscore, letters as configured (the lowercasing is
    applied to the prefix only, which is the lowercased stored name
    followed by [-]); so for a configured Name with a space the stored
    name is not the configured Name. *)
Theorem stored_name_has_spaces_replaced env m v w :
  contains " " (configuredName v) = true ->
  name (fst (parseRule env m v w)) = replaceChar " " "_" (configuredName v)
  /\ name (fst (parseRule env m v w)) <> configuredName v
  /\ extensionFormat (fst (parseRule env m v w)) =
     toLower (name (fst (parseRule env m v w))) ++ "-".
Proof.
  intros Hsp. rewrite parseRule_name, parseRule_extensionFormat.
  split; [reflexivity | split; [ | reflexivity]].
  apply replaceChar_changes; [ | exact Hsp].
  intros H. discriminate H.
Qed.

Lemma stored_name_has_spaces_replaced_witness :
  name (fst (parseRule someEnv scanManager
               (JObject [("Name", JString "Daily Backup")]) emptyWorld))
  = "Daily_Backup".
Proof.
  apply (stored_name_has_spaces_replaced someEnv scanManager
           (JObject [("Name", JString "Daily Backup")]) emptyWorld).
  reflexivity.
Defined.

(** ** The order of file names *)

Lemma string_compare_trans_le (a : string) : forall b c,
  String.compare a b <> Gt -> String.compare b c <> Gt ->
  String.compare a c <> Gt.
Proof.
  induction a as [ | x a IH]; intros [ | y b] [ | z c]; simpl;
    try congruence; try discriminate.
  unfold Ascii.compare.
  destruct (N.compare_spec (N_of_ascii x) (N_of_ascii y)) as [Exy | Lxy | Gxy];
    destruct (N.compare_spec (N_of_ascii y) (N_of_ascii z)) as [Eyz | Lyz | Gyz];
    destruct (N.compare_spec (N_of_ascii x) (N_of_ascii z)) as [Exz | Lxz | Gxz];
    try congruence; try discriminate; try lia.
  apply IH.
Qed.

Lemma string_leb_trans a b c :
  String.leb a b = true -> String.leb b c = true -> String.leb a c = true.
Proof.
  unfold String.leb. intros Hab Hbc.
  pose proof (string_compare_trans_le a b c) as H.
  destruct (String.compare a b), (String.compare b c), (String.compare a c);
    try reflexivity; try discriminate; exfalso; apply H; congruence.
Qed.

Lemma string_leb_neq_ltb a b :
  String.leb a b = true -> a <> b -> String.ltb a b = true.
Proof.
  unfold String.leb, String.ltb. intros Hle Hne.
  destruct (String.compare a b) eqn:E; try reflexivity; try discriminate.
  apply String.compare_eq_iff in E. contradiction.
Qed.

Lemma insertByName_In f l x :
  In x (insertByName f l) <-> x = f \/ In x l.
Proof.
  induction l as [ | g l IH]; simpl.
  - intuition.
  - destruct (String.leb f g); simpl; rewrite ?IH; intuition.
Qed.

Lemma insertByName_sorted f l :
  StronglySorted nameLe l -> StronglySorted nameLe (insertByName f l).
Proof.
  induction 1 as [ | g l Hs IH Hall]; simpl.
  - constructor; constructor.
  - destruct (String.leb f g) eqn:Hfg.
    + constructor; [now constructor | ].
      constructor; [exact Hfg | ].
      rewrite Forall_forall in *. intros x Hx.
      eapply string_leb_trans; [exact Hfg | now apply Hall].
    + constructor; [exact IH | ].
      rewrite Forall_forall in *. intros x Hx.
      apply insertByName_In in Hx. destruct Hx as [-> | Hx]; [ | now apply Hall].
      destruct (String.leb_total f g) as [H | H]; [congruence | exact H].
Qed.

Lemma sortByName_sorted l : StronglySorted nameLe (sortByName l).
Proof.
  induction l as [ | f l IH]; simpl; [constructor | now apply insertByName_sorted].
Qed.

Lemma insertByName_perm f l : Permutation (insertByName f l) (f :: l).
Proof.
  induction l as [ | g l IH]; simpl; [reflexivity | ].
  destruct (String.leb f g); [reflexivity | ].
  rewrite IH. apply perm_swap.
Qed.

Lemma sortByName_perm l : Permutation (sortByName l) l.
Proof.
  induction l as [ | f l IH]; simpl; [reflexivity | ].
  rewrite insertByName_perm. now constructor.
Qed.

Lemma sortByName_In l x : In x (sortByName l) <-> In x l.
Proof.
  split; apply Permutation_in;
    [apply sortByName_perm | symmetry; apply sortByName_perm].
Qed.

Lemma sorted_app_le (l1 l2 : list string) a b :
  StronglySorted nameLe (l1 ++ l2) -> In a l1 -> In b l2 -> nameLe a b.
Proof.
  induction l1 as [ | x l1 IH]; simpl; [tauto | ].
  intros Hs [-> | Ha] Hb; inversion Hs as [ | ? ? Hs' Hall]; subst.
  - rewrite Forall_forall in Hall. apply Hall, in_or_app. now right.
  - now apply IH.
Qed.

Lemma NoDup_app_disjoint {A : Type} (l1 l2 : list A) a :
  NoDup (l1 ++ l2) -> In a l1 -> ~ In a l2.
Proof.
  induction l1 as [ | x l1 IH]; simpl; [tauto | ].
  intros Hnd [-> | Ha] Hb; inversion Hnd as [ | ? ? Hnotin Hnd']; subst.
  - apply Hnotin, in_or_app. now right.
  - now apply (IH Hnd').
Qed.

Lemma filter_partition_length {A : Type} (p : A -> bool) (l : list A) :
  (List.length (filter p l)
   + List.length (filter (fun x => negb (p x)) l) = List.length l)%nat.
Proof.
  induction l as [ | x l IH]; simpl; [reflexivity | ].
  destruct (p x); simpl; lia.
Qed.

Lemma filter_filter {A : Type} (p q : A -> bool) (l : list A) :
  filter p (filter q l) = filter (fun x => q x && p x) l.
Proof.
  induction l as [ | x l IH]; simpl; [reflexivity | ].
  destruct (q x); simpl; [destruct (p x) | ]; now rewrite IH.
Qed.

Lemma existsb_eqb_In (f : string) (l : list string) :
  existsb (String.eqb f) l = true <-> In f l.
Proof.
  rewrite existsb_exists. split.
  - intros (x & Hx & Heq). apply String.eqb_eq in Heq. now subst.
  - intros Hf. exists f. split; [exact Hf | apply String.eqb_refl].
Qed.

(** ** Timestamps in file names *)

Lemma stripPrefix_Some p : forall s r,
  stripPrefix p s = Some r -> s = p ++ r.
Proof.
  induction p as [ | c p IH]; simpl; intros s r H.
  - now injection H as ->.
  - destruct s as [ | d s]; [discriminate | ].
    destruct (Ascii.eqb_spec c d) as [-> | ]; [ | discriminate].
    now rewrite (IH s r H).
Qed.

Lemma substring_all s : substring 0 (String.length s) s = s.
Proof. induction s as [ | c s IH]; simpl; [reflexivity | now rewrite IH]. Qed.

Lemma substring_split n : forall s,
  s = substring 0 n s ++ substring n (String.length s - n) s.
Proof.
  induction n as [ | n IH]; intros s.
  - rewrite Nat.sub_0_r, substring_all. now destruct s.
  - destruct s as [ | c s]; simpl; [reflexivity | ]. now rewrite <- IH.
Qed.

Lemma string_compare_refl s : String.compare s s = Eq.
Proof.
  induction s as [ | c s IH]; simpl; [reflexivity | ].
  unfold Ascii.compare. now rewrite N.compare_refl.
Qed.

Lemma string_compare_append p x y :
  String.compare (p ++ x) (p ++ y) = String.compare x y.
Proof.
  induction p as [ | c p IH]; simpl; [reflexivity | ].
  unfold Ascii.compare. now rewrite N.compare_refl.
Qed.

Lemma digitValue_inv c v :
  digitValue c = Some v -> nat_of_ascii c = (48 + v)%nat /\ (v < 10)%nat.
Proof.
  unfold digitValue.
  destruct ((48 <=? nat_of_ascii c)%nat && (nat_of_ascii c <=? 57)%nat) eqn:E;
    [ | discriminate].
  intros H. injection H as <-.
  apply andb_true_iff in E. destruct E as [E1 E2].
  apply Nat.leb_le in E1, E2. lia.
Qed.

Lemma digitValue_lt c v : digitValue c = Some v -> (v < 10)%nat.
Proof. intros H. now apply digitValue_inv in H. Qed.

Lemma digit_compare c c' v v' :
  digitValue c = Some v -> digitValue c' = Some v' ->
  Ascii.compare c c' = Nat.compare v v'.
Proof.
  intros H H'. apply digitValue_inv in H, H'.
  destruct H as [H _], H' as [H' _].
  unfold Ascii.compare. rewrite N2Nat.inj_compare.
  change (N.to_nat (N_of_ascii c)) with (nat_of_ascii c).
  change (N.to_nat (N_of_ascii c')) with (nat_of_ascii c').
  rewrite H, H'.
  destruct (Nat.compare_spec (48 + v) (48 + v')); destruct (Nat.compare_spec v v');
    try reflexivity; lia.
Qed.

Lemma compare_digits p q a b :
  (a < 10)%nat -> (b < 10)%nat ->
  Nat.compare (10 * p + a) (10 * q + b) =
  match Nat.compare p q with Eq => Nat.compare a b | c => c end.
Proof.
  intros Ha Hb.
  destruct (Nat.compare_spec p q); destruct (Nat.compare_spec a b);
    destruct (Nat.compare_spec (10 * p + a) (10 * q + b)); try reflexivity; lia.
Qed.

Lemma digitsValue_step acc c s v :
  digitValue c = Some v ->
  digitsValue acc (String c s) = digitsValue (10 * acc + v) s.
Proof. intros H. simpl. now rewrite H. Qed.

Lemma isDigit_value c : isDigit c = true -> exists v, digitValue c = Some v.
Proof. unfold isDigit. destruct (digitValue c); [eauto | discriminate]. Qed.

Lemma ltb_of_compare x y :
  (x <? y)%nat = match Nat.compare x y with Lt => true | _ => false end.
Proof.
  destruct (Nat.compare_spec x y); [subst; apply Nat.ltb_irrefl | now apply Nat.ltb_lt | apply Nat.ltb_ge; lia].
Qed.

Lemma fromString_order dtA dtB ta tb p z :
  fromString dtA = Some ta -> fromString dtB = Some tb ->
  String.ltb (p ++ dtA ++ z) (p ++ dtB ++ z) = Qt.ltb ta tb.
Proof.
  unfold fromString, dateTimeFields. intros HA HB.
  rewrite <- (string_of_list_ascii_of_string dtA).
  rewrite <- (string_of_list_ascii_of_string dtB).
  destruct (list_ascii_of_string dtA)
    as [ | y1 [ | y2 [ | y3 [ | y4 [ | c1 [ | m1 [ | m2 [ | c2 [ | d1 [ | d2
       [ | c3 [ | h1 [ | h2 [ | c4 [ | n1 [ | n2 [ | c5 [ | s1 [ | s2
       [ | x xs]]]]]]]]]]]]]]]]]]]]; try discriminate.
  destruct (list_ascii_of_string dtB)
    as [ | Y1 [ | Y2 [ | Y3 [ | Y4 [ | C1 [ | M1 [ | M2 [ | C2 [ | D1 [ | D2
       [ | C3 [ | H1 [ | H2 [ | C4 [ | N1 [ | N2 [ | C5 [ | S1 [ | S2
       [ | X XS]]]]]]]]]]]]]]]]]]]]; try discriminate.
  destruct (forallb isDigit _ && _ && _ && _ && _ && _) eqn:EA in HA; [ | discriminate].
  destruct (forallb isDigit _ && _ && _ && _ && _ && _) eqn:EB in HB; [ | discriminate].
  cbn [forallb] in EA, EB.
  repeat match goal with H : _ && _ = true |- _ =>
    apply andb_true_iff in H; destruct H end.
  repeat match goal with H : Ascii.eqb _ _ = true |- _ =>
    apply Ascii.eqb_eq in H; subst end.
  repeat match goal with H : isDigit _ = true |- _ =>
    apply isDigit_value in H; destruct H as (? & H) end.
  cbn [string_of_list_ascii] in HA, HB.
  repeat match goal with
  | H : digitValue ?c = Some ?v, G : context [digitsValue ?acc (String ?c ?s)] |- _ =>
      rewrite (digitsValue_step acc c s v H) in G
  end.
  cbn [digitsValue] in HA, HB.
  destruct (isValid _) in HA; [ | discriminate].
  destruct (isValid _) in HB; [ | discriminate].
  match type of HA with Some ?t = Some _ =>
    assert (HtA : t = ta) by congruence end.
  match type of HB with Some ?t = Some _ =>
    assert (HtB : t = tb) by congruence end.
  clear HA HB. subst ta tb.
  unfold String.ltb. rewrite string_compare_append.
  cbn [string_of_list_ascii String.append String.compare].
  repeat match goal with
  | H : digitValue ?c = Some ?v, H' : digitValue ?c' = Some ?v'
    |- context [Ascii.compare ?c ?c'] =>
      rewrite (digit_compare c c' v v' H H')
  end.
  change (Ascii.compare "-" "-") with Eq.
  change (Ascii.compare "_" "_") with Eq.
  cbv iota. rewrite string_compare_refl.
  unfold Qt.ltb. cbn [year month day hour minute second].
  rewrite ltb_of_compare.
  rewrite !compare_digits by (eapply digitValue_lt; eassumption).
  change (0 ?= 0)%nat with Eq. cbv iota.
  repeat match goal with |- context [(?a ?= ?b)%nat] =>
    destruct (a ?= b)%nat; try reflexivity end.
Qed.

(** For two files that carry a timestamp for the same prefix, the order
    of the names is the order of the timestamps. *)
Lemma name_order_is_time_order format a b ta tb :
  parsedTime format a = Some ta -> parsedTime format b = Some tb ->
  String.ltb a b = Qt.ltb ta tb.
Proof.
  unfold parsedTime, formatRE_cap1. intros HA HB.
  destruct (stripPrefix format a) as [ra | ] eqn:Ea; [ | discriminate].
  destruct (stripPrefix format b) as [rb | ] eqn:Eb; [ | discriminate].
  apply stripPrefix_Some in Ea, Eb.
  destruct (matchesDateTimeRE (substring 0 19 ra)
            && String.eqb (substring 19 (String.length ra - 19) ra) ".zip")
    eqn:Ca; [ | discriminate].
  destruct (matchesDateTimeRE (substring 0 19 rb)
            && String.eqb (substring 19 (String.length rb - 19) rb) ".zip")
    eqn:Cb; [ | discriminate].
  apply andb_true_iff in Ca, Cb. destruct Ca as [_ Ca], Cb as [_ Cb].
  apply String.eqb_eq in Ca, Cb.
  rewrite (substring_split 19 ra) in Ea. rewrite (substring_split 19 rb) in Eb.
  rewrite Ca in Ea. rewrite Cb in Eb. subst a b.
  now apply fromString_order.
Qed.

(** ** The Retention Enforcer *)

Lemma files_emit e w : files (emit e w) = files w.
Proof. reflexivity. Qed.

Lemma files_unlink f w : files (unlink f w) = deleteFile f (files w).
Proof. unfold unlink, files. simpl. now destruct (directory w). Qed.

Lemma deleteFile_In f g fs : In g (deleteFile f fs) <-> In g fs /\ g <> f.
Proof.
  unfold deleteFile. rewrite filter_In, negb_true_iff, String.eqb_neq. tauto.
Qed.

Lemma removeFiles_files env m toDelete : forall w,
  files (removeFiles env m toDelete w) =
  filter (survives env m toDelete) (files w).
Proof.
  induction toDelete as [ | f rest IH]; intros w; simpl.
  - symmetry. apply filter_all_true. reflexivity.
  - rewrite IH. destruct (removeSucceeds env (filePath m f)) eqn:Hrm.
    + rewrite files_emit, files_unlink. unfold deleteFile.
      rewrite filter_filter. apply filter_ext. intros g.
      unfold survives. simpl. destruct (String.eqb_spec g f) as [-> | Hgf].
      * now rewrite Hrm.
      * reflexivity.
    + rewrite files_emit. apply filter_ext. intros g.
      unfold survives. simpl. destruct (String.eqb_spec g f) as [-> | Hgf].
      * rewrite Hrm. now rewrite !andb_false_r.
      * reflexivity.
Qed.

(** A removal that succeeds is reported, and nothing is taken from the
    debug output. *)
Lemma removeFiles_output env m toDelete : forall w,
  exists delta,
    output (removeFiles env m toDelete w) = (output w ++ delta)%list /\
    forall f, In f toDelete -> removeSucceeds env (filePath m f) = true ->
      In (RemovedOldBackup (filePath m f)) delta.
Proof.
  induction toDelete as [ | f rest IH]; intros w; simpl.
  - exists []. split; [now rewrite app_nil_r | intros f []].
  - destruct (removeSucceeds env (filePath m f)) eqn:Hrm.
    + destruct (IH (emit (RemovedOldBackup (filePath m f)) (unlink f w)))
        as (delta & Hout & Hin).
      exists (RemovedOldBackup (filePath m f) :: delta). split.
      * rewrite Hout. simpl. now rewrite <- app_assoc.
      * intros g [<- | Hg] Hg'; [now left | right; auto].
    + destruct (IH (emit (FailedToRemoveOldBackup (filePath m f)) w))
        as (delta & Hout & Hin).
      exists (FailedToRemoveOldBackup (filePath m f) :: delta). split.
      * rewrite Hout. simpl. now rewrite <- app_assoc.
      * intros g [<- | Hg] Hg'; [congruence | right; auto].
Qed.

Lemma removeFiles_dirExists env m toDelete : forall w,
  dirExists (removeFiles env m toDelete w) = dirExists w /\
  ticks (removeFiles env m toDelete w) = ticks w.
Proof.
  induction toDelete as [ | f rest IH]; intros w; simpl; [now split | ].
  destruct (removeSucceeds env (filePath m f));
    destruct (IH (emit (RemovedOldBackup (filePath m f)) (unlink f w)))
      as [H1 H2];
    destruct (IH (emit (FailedToRemoveOldBackup (filePath m f)) w))
      as [H3 H4].
  - rewrite H1, H2. unfold dirExists, unlink. simpl.
    now destruct (directory w).
  - rewrite H3, H4. now split.
Qed.

(** The directory after a retention run. *)
Lemma removeOldBackupVersions_files env m rule w :
  files (removeOldBackupVersions env m rule w) =
  filter (survives env m
            (if 0 <? maxBackupVersions rule
             then attempted rule (files w) else []))
         (files w).
Proof.
  unfold removeOldBackupVersions.
  destruct (dirExists w) eqn:Hd; simpl.
  - destruct (0 <? maxBackupVersions rule).
    + rewrite files_emit, removeFiles_files. reflexivity.
    + rewrite files_emit. symmetry. apply filter_all_true. reflexivity.
  - rewrite files_emit. unfold files, dirExists in *.
    destruct (directory w); [discriminate | reflexivity].
Qed.

Lemma attempted_In rule fs a :
  In a (attempted rule fs) -> In a (matching rule fs).
Proof.
  unfold attempted, entryInfoList, matching. intros Ha.
  apply sortByName_In.
  rewrite <- (firstn_skipn
                (Z.to_nat (Z.of_nat (List.length (sortByName
                   (filter (wildcardMatch (extensionFormat rule ++ "*.zip")) fs)))
                   - maxBackupVersions rule))).
  apply in_or_app. now left.
Qed.

(** A file the rule's name filter does not match outlives the rule's
    retention run. *)
Lemma removeOldBackupVersions_keeps env m rule w f :
  In f (files w) ->
  wildcardMatch (extensionFormat rule ++ "*.zip") f = false ->
  In f (files (removeOldBackupVersions env m rule w)).
Proof.
  intros Hf Hwm. rewrite removeOldBackupVersions_files.
  apply filter_In. split; [exact Hf | ].
  unfold survives. apply negb_true_iff, andb_false_iff. left.
  destruct (existsb (String.eqb f) _) eqn:E; [ | reflexivity].
  apply existsb_eqb_In in E.
  destruct (0 <? maxBackupVersions rule); [ | destruct E].
  apply attempted_In in E. unfold matching in E. apply filter_In in E.
  destruct E as [_ E]. congruence.
Qed.

Lemma length_filter_mem (l att : list string) :
  NoDup l -> NoDup att -> (forall a, In a att -> In a l) ->
  List.length (filter (fun f => existsb (String.eqb f) att) l)
  = List.length att.
Proof.
  intros Hl Hatt Hsub. apply Permutation_length, NoDup_Permutation.
  - now apply NoDup_filter.
  - exact Hatt.
  - intros x. rewrite filter_In, existsb_eqb_In. intuition.
Qed.

Lemma attempted_facts rule fs :
  NoDup fs -> 0 < maxBackupVersions rule ->
  let ms := matching rule fs in
  let att := attempted rule fs in
  Z.of_nat (List.length att)
  = Z.max 0 (Z.of_nat (List.length ms) - maxBackupVersions rule)
  /\ NoDup att
  /\ (forall a b, In a att -> In b ms -> ~ In b att -> String.ltb a b = true).
Proof.
  intros Hnd HN ms att.
  set (sorted := sortByName ms).
  set (k := Z.to_nat (Z.of_nat (List.length sorted) - maxBackupVersions rule)).
  assert (Hatt : att = firstn k sorted) by reflexivity.
  assert (Hlen : List.length sorted = List.length ms)
    by apply Permutation_length, sortByName_perm.
  assert (Hnds : NoDup sorted).
  { eapply Permutation_NoDup; [symmetry; apply sortByName_perm | ].
    now apply NoDup_filter. }
  assert (Hsplit : (firstn k sorted ++ skipn k sorted)%list = sorted)
    by apply firstn_skipn.
  split; [ | split].
  - rewrite Hatt, length_firstn. unfold k. rewrite Hlen. lia.
  - rewrite Hatt. apply (NoDup_app_remove_r _ (skipn k sorted)).
    now rewrite Hsplit.
  - intros a b Ha Hb Hnb. rewrite Hatt in Ha, Hnb.
    assert (Hbs : In b (skipn k sorted)).
    { apply sortByName_In in Hb. fold sorted in Hb.
      rewrite <- Hsplit in Hb. apply in_app_or in Hb. tauto. }
    apply string_leb_neq_ltb.
    + apply (sorted_app_le (firstn k sorted) (skipn k sorted)); auto.
      rewrite Hsplit. apply sortByName_sorted.
    + intros ->. contradiction.
Qed.


(** ** The Backup Executor *)

Lemma createBackups_eq handlers zipName opened : forall w,
  createBackups handlers zipName opened w =
  mkWorld (directory w) (ticks w)
    (output w ++ map (fun h => CreateBackupCall h zipName opened) handlers).
Proof.
  induction handlers as [ | h rest IH]; intros w; simpl.
  - rewrite app_nil_r. now destruct w.
  - rewrite IH. unfold emit. simpl. now rewrite <- app_assoc.
Qed.

(** A rule whose interval has not elapsed: two lines of debug output. *)
Lemma backupRule_idle env m now rule w :
  fires now rule = false ->
  backupRule env m now rule w =
  (rule,
   emit (BackupNotNeeded (name rule))
     (emit (CheckingRule (name rule) (now - lastBackupSeconds rule)
                         (intervalSeconds rule)) w)).
Proof.
  unfold fires, backupRule. intros H. now rewrite H.
Qed.

(** A rule whose interval has elapsed: the archive is opened, the
    handlers run, the archive is closed, the rule is stamped with [now],
    and the Retention Enforcer runs on the stamped rule. *)
Lemma backupRule_fires env m now rule w :
  fires now rule = true ->
  backupRule env m now rule w =
  (setLastBackupSeconds now rule,
   removeOldBackupVersions env m (setLastBackupSeconds now rule)
     (archiveClosed env m now rule w)).
Proof.
  unfold fires, backupRule. intros H. rewrite H.
  unfold currentDateTime, zipOpen, archiveClosed, firingOutput, archiveOpens,
    archiveName, filePath, dirExists, files. simpl.
  destruct (directory w) as [fs | ]; simpl;
    [destruct (zipOpens env _); simpl | ];
    rewrite createBackups_eq; unfold emit; simpl;
    repeat (rewrite <- app_assoc; simpl); reflexivity.
Qed.

Lemma removeOldBackupVersions_frame env m rule w :
  ticks (removeOldBackupVersions env m rule w) = ticks w /\
  dirExists (removeOldBackupVersions env m rule w) = dirExists w.
Proof.
  unfold removeOldBackupVersions.
  destruct (dirExists w && (0 <? maxBackupVersions rule)); simpl; [ | now split].
  cbv zeta.
  match goal with |- context [removeFiles env m ?l ?w0] =>
    destruct (removeFiles_dirExists env m l w0) as [H1 H2] end.
  split; [exact H2 | exact H1].
Qed.

(** What a retention run writes: a first line naming the rule, and a line
    for every file it removed. *)
Lemma removeOldBackupVersions_output env m rule w :
  exists delta,
    output (removeOldBackupVersions env m rule w) = (output w ++ delta)%list
    /\ (hd_error delta = Some (RollingOldVersions (name rule)) \/
        delta = [NoNeedToRoll (name rule) (maxBackupVersions rule)])
    /\ (forall f, In f (files w) ->
          ~ In f (files (removeOldBackupVersions env m rule w)) ->
          In (RemovedOldBackup (filePath m f)) delta).
Proof.
  pose proof (removeOldBackupVersions_files env m rule w) as Hfiles.
  unfold removeOldBackupVersions in *.
  destruct (dirExists w && (0 <? maxBackupVersions rule)) eqn:Hc.
  - apply andb_true_iff in Hc. destruct Hc as [_ HN]. rewrite HN in Hfiles.
    destruct (removeFiles_output env m (attempted rule (files w))
                (emit (RollingOldVersions (name rule)) w))
      as (delta & Hout & Hin).
    exists (RollingOldVersions (name rule) :: delta ++ [DoneRolling])%list.
    split; [ | split].
    + transitivity
        (output (removeFiles env m (attempted rule (files w))
                   (emit (RollingOldVersions (name rule)) w))
         ++ [DoneRolling])%list; [reflexivity | ].
      rewrite Hout. simpl. rewrite <- !app_assoc. reflexivity.
    + now left.
    + intros f Hf Hgone. right. apply in_or_app. left.
      rewrite Hfiles, filter_In in Hgone. unfold survives in Hgone.
      destruct (existsb (String.eqb f) (attempted rule (files w))) eqn:E;
        destruct (removeSucceeds env (filePath m f)) eqn:R;
        simpl in Hgone; try tauto.
      apply Hin; [now apply existsb_eqb_In | exact R].
  - exists [NoNeedToRoll (name rule) (maxBackupVersions rule)].
    split; [reflexivity | split; [now right | ]].
    intros f Hf Hgone. exfalso. apply Hgone. exact Hf.
Qed.

Lemma skipn_length_app {A : Type} (l delta : list A) :
  skipn (List.length l) (l ++ delta) = delta.
Proof.
  rewrite skipn_app, skipn_all, Nat.sub_diag. reflexivity.
Qed.

Lemma addFile_In f fs x : In x (addFile f fs) <-> In x fs \/ x = f.
Proof.
  unfold addFile. destruct (existsb (String.eqb f) fs) eqn:E.
  - apply existsb_eqb_In in E. split; [tauto | intros [H | ->]; assumption].
  - rewrite in_app_iff. simpl. intuition.
Qed.

Lemma backupRule_rule env m now rule w :
  fst (backupRule env m now rule w) =
  if fires now rule then setLastBackupSeconds now rule else rule.
Proof.
  destruct (fires now rule) eqn:H.
  - now rewrite backupRule_fires.
  - now rewrite backupRule_idle.
Qed.

Lemma backupRules_rules env m now rules : forall w,
  fst (backupRules env m now rules w) =
  map (fun r => if fires now r then setLastBackupSeconds now r else r) rules.
Proof.
  induction rules as [ | rule rest IH]; intros w; simpl; [reflexivity | ].
  pose proof (backupRule_rule env m now rule w) as H.
  destruct (backupRule env m now rule w) as [rule' w1]. simpl in H.
  specialize (IH w1). destruct (backupRules env m now rest w1) as [rest' w2].
  simpl in *. now rewrite H, IH.
Qed.

(** C5. The error path of the Backup Executor.  For every rule that
    fires, whatever the outcome of opening the archive: [lastBackupSeconds]
    becomes [now] and the Retention Enforcer runs for the stamped rule on
    the world left by the closing of the archive, its first line of output
    naming the rule.  When the archive cannot be opened for writing, the
    two lines about the failed open are written, then [createBackup] of
    every registered handler is called, in registration order, on the
    writer that is not open, and the directory is as it was when the
    Retention Enforcer starts. *)
Theorem open_failure_still_runs_handlers_and_retention env m now rule w :
  fires now rule = true ->
  let fileName := archiveName (extensionFormat rule) (clock env (ticks w)) in
  let zipName := filePath m fileName in
  let rule' := setLastBackupSeconds now rule in
  let closed := archiveClosed env m now rule w in
  backupRule env m now rule w =
    (rule', removeOldBackupVersions env m rule' closed)
  /\ lastBackupSeconds (fst (backupRule env m now rule w)) = now
  /\ (exists delta,
        output (snd (backupRule env m now rule w))
        = (output closed ++ delta)%list
        /\ (hd_error delta = Some (RollingOldVersions (name rule)) \/
            delta = [NoNeedToRoll (name rule) (maxBackupVersions rule)]))
  /\ (archiveOpens env m rule w = false ->
      directory closed = directory w
      /\ output closed =
         (output w
          ++ [CheckingRule (name rule) (now - lastBackupSeconds rule)
                           (intervalSeconds rule);
              DoingBackupNow (name rule) (now - lastBackupSeconds rule)
                             (intervalSeconds rule);
              CouldNotOpenArchive zipName;
              ArchiveOpenError zipName]
          ++ map (fun h => CreateBackupCall h zipName false)
               (_backupHandlers m)
          ++ [CreatedBackup fileName])%list).
Proof.
  intros Hfires fileName zipName rule' closed.
  rewrite (backupRule_fires env m now rule w Hfires). fold rule' closed.
  split; [reflexivity | split; [reflexivity | split]].
  - destruct (removeOldBackupVersions_output env m rule' closed)
      as (delta & Hout & Hhd & _).
    exists delta. split; [exact Hout | exact Hhd].
  - intros Hopen. split.
    + unfold closed, archiveClosed. now rewrite Hopen.
    + unfold closed, archiveClosed, firingOutput. rewrite Hopen. reflexivity.
Qed.

Lemma open_failure_still_runs_handlers_and_retention_witness :
  output (snd (backupRule failingEnv twoHandlers 1704067200 dailyRule
                 emptyWorld)) =
  [CheckingRule "Daily" 1704067200 86400;
   DoingBackupNow "Daily" 1704067200 86400;
   CouldNotOpenArchive "/var/backups/backup-daily-2024-01-01_00-00-00.zip";
   ArchiveOpenError "/var/backups/backup-daily-2024-01-01_00-00-00.zip";
   CreateBackupCall 1%nat
     "/var/backups/backup-daily-2024-01-01_00-00-00.zip" false;
   CreateBackupCall 2%nat
     "/var/backups/backup-daily-2024-01-01_00-00-00.zip" false;
   CreatedBackup "backup-daily-2024-01-01_00-00-00.zip";
   RollingOldVersions "Daily"; DoneRolling]
  /\ lastBackupSeconds (fst (backupRule failingEnv twoHandlers 1704067200
                               dailyRule emptyWorld)) = 1704067200.
Proof.
  destruct (open_failure_still_runs_handlers_and_retention failingEnv
              twoHandlers 1704067200 dailyRule emptyWorld eq_refl)
    as (Heq & Hlast & _ & Hfail).
  destruct (Hfail eq_refl) as (_ & Hout).
  split; [rewrite Heq; reflexivity | exact Hlast].
Defined.

Lemma files_archiveClosed env m now rule w x :
  In x (files (archiveClosed env m now rule w)) ->
  In x (files w) \/
  x = archiveName (extensionFormat rule) (clock env (ticks w)).
Proof.
  unfold archiveClosed, files at 1. simpl.
  destruct (archiveOpens env m rule w).
  - apply addFile_In.
  - intros H. now left.
Qed.

(** What one rule writes during a cycle. *)
Lemma backupRule_written env m now rule w :
  let written :=
    skipn (List.length (output w))
          (output (snd (backupRule env m now rule w))) in
  if fires now rule
  then exists delta,
         written = (firingOutput env m now rule w ++ delta)%list
         /\ (hd_error delta = Some (RollingOldVersions (name rule)) \/
             delta = [NoNeedToRoll (name rule) (maxBackupVersions rule)])
  else written =
       [CheckingRule (name rule) (now - lastBackupSeconds rule)
                     (intervalSeconds rule);
        BackupNotNeeded (name rule)].
Proof.
  intros written. unfold written. destruct (fires now rule) eqn:H.
  - rewrite (backupRule_fires env m now rule w H). simpl.
    destruct (removeOldBackupVersions_output env m
                (setLastBackupSeconds now rule)
                (archiveClosed env m now rule w)) as (delta & Hout & Hhd & _).
    exists delta. rewrite Hout. simpl.
    rewrite <- app_assoc, skipn_length_app. split; [reflexivity | exact Hhd].
  - rewrite (backupRule_idle env m now rule w H). simpl.
    rewrite <- app_assoc, skipn_length_app. reflexivity.
Qed.

(** C3 (as amended).  One rule in a backup cycle started at [now], with
    [fileName] the archive name of the rule at the reading of the clock:
    - the rule fires if and only if
      [now - lastBackupSeconds > intervalSeconds]: exactly then it writes
      [Created backup: fileName], and exactly then [createBackup] of each
      registered handler is called on the archive;
    - what a firing rule writes is, in this order: the two lines about
      the elapsed interval, the two error lines when the archive does not
      open, the call of [createBackup] of every handler in registration
      order, [Created backup: fileName], and the output of the retention
      run for the rule; a rule that does not fire writes its two lines
      and calls no handler;
    - a rule that fires has [lastBackupSeconds] set to [now], any other
      rule is returned as it was;
    - a rule that fires adds no file but [fileName], and when the archive
      opens [fileName] is in the directory afterwards unless the retention
      run of this very rule reports its removal;
    - a rule that does not fire leaves the directory and the clock alone.
    Over the whole cycle the rule list becomes the list of the rules so
    updated. *)
Theorem rule_fires_iff_interval_elapsed env m now rule w :
  let rw := backupRule env m now rule w in
  let fileName := archiveName (extensionFormat rule) (clock env (ticks w)) in
  let zipName := filePath m fileName in
  let opened := archiveOpens env m rule w in
  let written := skipn (List.length (output w)) (output (snd rw)) in
  (In (CreatedBackup fileName) written <->
   intervalSeconds rule < now - lastBackupSeconds rule)
  /\ (forall h, In h (_backupHandlers m) ->
        (In (CreateBackupCall h zipName opened) written <->
         intervalSeconds rule < now - lastBackupSeconds rule))
  /\ (if fires now rule
      then exists delta,
             written =
             ([CheckingRule (name rule) (now - lastBackupSeconds rule)
                            (intervalSeconds rule);
               DoingBackupNow (name rule) (now - lastBackupSeconds rule)
                              (intervalSeconds rule)]
              ++ (if opened then []
                  else [CouldNotOpenArchive zipName; ArchiveOpenError zipName])
              ++ map (fun h => CreateBackupCall h zipName opened)
                   (_backupHandlers m)
              ++ [CreatedBackup fileName]
              ++ delta)%list
             /\ (hd_error delta = Some (RollingOldVersions (name rule)) \/
                 delta = [NoNeedToRoll (name rule) (maxBackupVersions rule)])
      else written =
           [CheckingRule (name rule) (now - lastBackupSeconds rule)
                         (intervalSeconds rule);
            BackupNotNeeded (name rule)])
  /\ fst rw = (if fires now rule then setLastBackupSeconds now rule else rule)
  /\ (if fires now rule
      then (forall f, In f (files (snd rw)) -> In f (files w) \/ f = fileName)
           /\ (opened = true ->
               In fileName (files (snd rw)) \/
               In (RemovedOldBackup (filePath m fileName)) written)
      else directory (snd rw) = directory w /\ ticks (snd rw) = ticks w)
  /\ _backupRules (fst (backup env m w)) =
     map (fun r =>
            if fires (toSecsSinceEpoch (utcOffset env) (clock env (ticks w))) r
            then setLastBackupSeconds
                   (toSecsSinceEpoch (utcOffset env) (clock env (ticks w))) r
            else r)
         (_backupRules m).
Proof.
  intros rw fileName zipName opened written.
  pose proof (backupRule_written env m now rule w) as Hw.
  cbv zeta in Hw. fold rw in Hw. fold written in Hw.
  assert (Hcond : fires now rule = true <->
                  intervalSeconds rule < now - lastBackupSeconds rule)
    by (unfold fires; apply Z.ltb_lt).
  split; [ | split; [ | split; [ | split; [apply backupRule_rule | split]]]].
  - rewrite <- Hcond. destruct (fires now rule).
    + destruct Hw as (delta & -> & _). split; [reflexivity | intros _].
      apply in_or_app. left. unfold firingOutput.
      rewrite !in_app_iff. right. right. right. now left.
    + rewrite Hw. split; [ | discriminate].
      intros [E | [E | []]]; discriminate.
  - intros h Hh. rewrite <- Hcond. destruct (fires now rule).
    + destruct Hw as (delta & -> & _). split; [reflexivity | intros _].
      apply in_or_app. left. unfold firingOutput.
      rewrite !in_app_iff. right. right. left.
      apply in_map_iff. now exists h.
    + rewrite Hw. split; [ | discriminate].
      intros [E | [E | []]]; discriminate.
  - destruct (fires now rule); [ | exact Hw].
    destruct Hw as (delta & -> & Hhd). exists delta.
    split; [ | exact Hhd]. unfold firingOutput.
    fold fileName. fold zipName. fold opened.
    rewrite <- !app_assoc. reflexivity.
  - unfold written, rw. destruct (fires now rule) eqn:H.
    + rewrite (backupRule_fires env m now rule w H). simpl.
      destruct (removeOldBackupVersions_output env m
                  (setLastBackupSeconds now rule)
                  (archiveClosed env m now rule w)) as (delta & Hout & _ & Hgone).
      split.
      * intros f Hf. rewrite removeOldBackupVersions_files in Hf.
        apply filter_In in Hf. destruct Hf as [Hf _].
        now apply files_archiveClosed in Hf.
      * intros Hopen. rewrite Hout. simpl.
        rewrite <- app_assoc, skipn_length_app.
        destruct (in_dec string_dec fileName
                    (files (removeOldBackupVersions env m
                              (setLastBackupSeconds now rule)
                              (archiveClosed env m now rule w))))
          as [Hin | Hnot]; [now left | right].
        apply in_or_app. right. apply Hgone; [ | exact Hnot].
        unfold archiveClosed, files. simpl. fold opened. rewrite Hopen.
        apply addFile_In. now right.
    + rewrite (backupRule_idle env m now rule w H). now split.
  - unfold backup, currentDateTime.
    pose proof (backupRules_rules env m
                  (toSecsSinceEpoch (utcOffset env) (clock env (ticks w)))
                  (_backupRules m)
                  (mkWorld (directory w) (S (ticks w)) (output w))) as H.
    destruct (backupRules env m _ (_backupRules m) _) as [rules w'].
    simpl in *. exact H.
Qed.

(** C3 as stated fails when the archive cannot be opened: the interval of
    the rule has elapsed and the rule fires, yet no file comes into being. *)
Lemma rule_fires_iff_interval_elapsed_counterexample :
  ~ (archiveCreated emptyWorld
       (snd (backupRule failingEnv twoHandlers 1704067200 dailyRule
               emptyWorld))
     <-> intervalSeconds dailyRule < 1704067200 - lastBackupSeconds dailyRule).
Proof.
  intros [_ H].
  destruct H as (f & Hin & _); [reflexivity | ].
  vm_compute in Hin. exact Hin.
Qed.

(** ** The Persist Guard *)

Lemma append_assoc (a b c : string) : (a ++ b) ++ c = a ++ (b ++ c).
Proof. induction a as [ | x a IH]; simpl; [reflexivity | now rewrite IH]. Qed.




Lemma backupRule_keeps env m now rule w f :
  In f (files w) ->
  wildcardMatch (extensionFormat rule ++ "*.zip") f = false ->
  In f (files (snd (backupRule env m now rule w))).
Proof.
  intros Hf Hwm. destruct (fires now rule) eqn:H.
  - rewrite (backupRule_fires env m now rule w H). simpl.
    apply removeOldBackupVersions_keeps; [ | exact Hwm].
    unfold archiveClosed, files at 1. simpl.
    destruct (archiveOpens env m rule w); [ | exact Hf].
    apply addFile_In. now left.
  - rewrite (backupRule_idle env m now rule w H). exact Hf.
Qed.

Lemma backupRules_keeps env m now rules f : forall w,
  In f (files w) ->
  (forall rule, In rule rules ->
     wildcardMatch (extensionFormat rule ++ "*.zip") f = false) ->
  In f (files (snd (backupRules env m now rules w))).
Proof.
  induction rules as [ | rule rest IH]; intros w Hf Hwm; simpl; [exact Hf | ].
  pose proof (backupRule_keeps env m now rule w f Hf
                (Hwm rule (or_introl eq_refl))) as H1.
  destruct (backupRule env m now rule w) as [rule' w1]. simpl in H1.
  specialize (IH w1 H1 (fun r Hr => Hwm r (or_intror Hr))).
  destruct (backupRules env m now rest w1) as [rest' w2]. exact IH.
Qed.


Lemma mkpath_frame env w :
  output (mkpath env w) = output w /\ ticks (mkpath env w) = ticks w /\
  files (mkpath env w) = files w.
Proof.
  unfold mkpath, files.
  destruct (directory w) eqn:E; [now rewrite E | ].
  destruct (mkpathSucceeds env); simpl; now rewrite ?E.
Qed.




(** ** Archives written by the executor, read by the scanner *)

Lemma length_append (a b : string) :
  String.length (a ++ b) = (String.length a + String.length b)%nat.
Proof. induction a as [ | x a IH]; simpl; [reflexivity | now rewrite IH]. Qed.

Lemma substring_length n : forall m s,
  (n + m <= String.length s)%nat -> String.length (substring n m s) = m.
Proof.
  induction n as [ | n IH]; intros m s H.
  - revert s H. induction m as [ | m IHm]; intros [ | c s] H; simpl in *;
      try reflexivity; try lia. rewrite IHm; [reflexivity | lia].
  - destruct s as [ | c s]; simpl in *; [lia | ]. apply IH. lia.
Qed.

Lemma length_zeros k : String.length (zeros k) = k.
Proof. induction k as [ | k IH]; simpl; [reflexivity | now rewrite IH]. Qed.

Lemma length_zeroPad w n : (w <= String.length (zeroPad w n))%nat.
Proof. unfold zeroPad. rewrite length_append, length_zeros. lia. Qed.

Lemma length_toString t : (19 <= String.length (toString t))%nat.
Proof.
  unfold toString. rewrite !length_append. simpl.
  pose proof (length_zeroPad 4 (year t)). pose proof (length_zeroPad 2 (month t)).
  pose proof (length_zeroPad 2 (day t)). pose proof (length_zeroPad 2 (hour t)).
  pose proof (length_zeroPad 2 (minute t)).
  pose proof (length_zeroPad 2 (second t)). lia.
Qed.

(** The pattern of the scanner for a prefix never matches the name the
    executor writes for that prefix: the name starts with [backup-], which
    the pattern does not allow for. *)
Lemma formatRE_rejects_archiveName prefix stamp :
  formatRE_cap1 prefix (archiveName prefix stamp) = None.
Proof.
  unfold formatRE_cap1.
  destruct (stripPrefix prefix (archiveName prefix stamp)) as [rest | ] eqn:E;
    [ | reflexivity].
  apply stripPrefix_Some in E. apply (f_equal String.length) in E.
  unfold archiveName in E. rewrite !length_append in E. simpl in E.
  pose proof (length_toString stamp) as Hts.
  destruct (String.eqb_spec
              (substring 19 (String.length rest - 19) rest) ".zip") as [Hz | Hz].
  - apply (f_equal String.length) in Hz.
    rewrite substring_length in Hz by lia. simpl in Hz. lia.
  - now rewrite andb_false_r.
Qed.

Lemma no_candidate_result m format o1 o2 w :
  candidates format (files w) = [] ->
  fst (getMostRecentBackup m format o1 o2 w) = (false, o1, o2).
Proof.
  intros H. rewrite getMostRecentBackup_result, H. reflexivity.
Qed.

(** C1 (the code at the failing input).  The Scanner run with the prefix
    of a rule finds none of the archives the executor wrote for that rule:
    whatever the prefix and the timestamps, a directory of such archives
    yields "no archive found"; in particular with prefix [daily-] and the
    January and June archives in the directory the Scanner returns false
    and no file. *)
Theorem scanner_misses_executor_archives :
  (forall m prefix o1 o2 w,
     (forall f, In f (files w) ->
        exists stamp, f = archiveName prefix stamp) ->
     fst (getMostRecentBackup m prefix o1 o2 w) = (false, o1, o2))
  /\ fst (getMostRecentBackup scanManager "daily-" "" None juneWorld)
     = (false, "", None).
Proof.
  assert (H : forall m prefix o1 o2 w,
            (forall f, In f (files w) ->
               exists stamp, f = archiveName prefix stamp) ->
            fst (getMostRecentBackup m prefix o1 o2 w) = (false, o1, o2)).
  { intros m prefix o1 o2 w Hall. apply no_candidate_result.
    unfold candidates. apply filter_all_false. intros f Hf.
    unfold dirIteratorEntries in Hf. apply filter_In in Hf.
    destruct Hf as [Hf _]. destruct (Hall f Hf) as (stamp & ->).
    unfold hasParsedTime, parsedTime.
    now rewrite formatRE_rejects_archiveName. }
  split; [exact H | ].
  apply H. intros f Hf. simpl in Hf.
  destruct Hf as [<- | [<- | []]].
  - now exists (mkDateTime 2024 1 1 0 0 0).
  - now exists (mkDateTime 2024 6 1 0 0 0).
Qed.

(** ** The scenario of the rule [Daily] *)

(** C2 (the code at the failing input).  The rule read from the settings
    is [Daily], every 86400 seconds, at most 3 versions, never backed up.
    The first cycle writes one archive, [backup-daily-<timestamp>.zip].
    Four cycles two days apart, each of which fires, leave four archives
    in the directory, not three: the retention run of the rule looks for
    [daily-*.zip] and so never sees an archive of the rule. *)
Theorem four_cycles_leave_four_archives :
  _backupRules (fst dailyStart) = [mkBackupRule "Daily" 86400 "daily-" 3 0]
  /\ files (snd (cycle dailyStart)) = ["backup-daily-2024-01-01_00-00-00.zip"]
  /\ files (snd (cycle (cycle (cycle (cycle dailyStart))))) =
     ["backup-daily-2024-01-01_00-00-00.zip";
      "backup-daily-2024-01-03_00-00-00.zip";
      "backup-daily-2024-01-05_00-00-00.zip";
      "backup-daily-2024-01-07_00-00-00.zip"]
  /\ map lastBackupSeconds
       (_backupRules (fst (cycle (cycle (cycle (cycle dailyStart))))))
     = [toSecsSinceEpoch 0 (mkDateTime 2024 1 7 0 0 0)]
  /\ matching dailyRule (files (snd (cycle (cycle (cycle (cycle dailyStart))))))
     = [].
Proof.
  repeat split; vm_compute; reflexivity.
Qed.

(** ** Concrete runs of the amended claims *)



(** A rule whose interval has elapsed writes its archive. *)
Lemma rule_fires_iff_interval_elapsed_witness :
  In (CreatedBackup "backup-daily-2024-01-01_00-00-00.zip")
     (output (snd (backupRule someEnv twoHandlers 1704067200 dailyRule
                     emptyWorld)))
  /\ In (CreateBackupCall 2%nat
           "/var/backups/backup-daily-2024-01-01_00-00-00.zip" true)
        (output (snd (backupRule someEnv twoHandlers 1704067200 dailyRule
                        emptyWorld)))
  /\ In "backup-daily-2024-01-01_00-00-00.zip"
        (files (snd (backupRule someEnv twoHandlers 1704067200 dailyRule
                       emptyWorld))).
Proof.
  destruct (rule_fires_iff_interval_elapsed someEnv twoHandlers 1704067200
              dailyRule emptyWorld) as (Hiff & Hcalls & _ & _ & Hfire & _).
  split; [ | split].
  - apply (proj2 Hiff). reflexivity.
  - apply (proj2 (Hcalls 2%nat (or_intror (or_introl eq_refl)))). reflexivity.
  - vm_compute. now left.
Defined.

(* ================================================================== *)
(** * Part 4. Further properties of the code *)
(* ================================================================== *)

(** ** The Loader *)

Lemma loadBackups_eq handlers path : forall trace,
  loadBackups handlers path trace =
  (trace ++ map (fun h => LoadBackupCall h path) handlers)%list.
Proof.
  induction handlers as [ | h rest IH]; intros trace; simpl.
  - now rewrite app_nil_r.
  - rewrite IH, <- app_assoc. reflexivity.
Qed.

Lemma loadFiles_step lenv m f rest trace :
  loadFiles lenv m (f :: rest) trace =
  loadFiles lenv m rest (trace ++ loadFileEvents lenv m f)%list.
Proof.
  simpl. unfold loadFileEvents, loadCallsFor.
  destruct (fileOpensReadOnly lenv (filePath m f)); simpl; [ | reflexivity].
  destruct (zipOpensUnzip lenv (filePath m f)); simpl; [ | reflexivity].
  now rewrite loadBackups_eq.
Qed.

Lemma loadFiles_eq lenv m fs : forall trace,
  loadFiles lenv m fs trace =
  (trace ++ flat_map (loadFileEvents lenv m) fs)%list.
Proof.
  induction fs as [ | f rest IH]; intros trace.
  - simpl. now rewrite app_nil_r.
  - rewrite loadFiles_step, IH. simpl. now rewrite <- app_assoc.
Qed.

Lemma load_eq lenv m w :
  load lenv m w =
  flat_map (loadFileEvents lenv m) (entryInfoList "backup-*.zip" (files w)).
Proof.
  unfold load. destruct (dirExists w) eqn:E.
  - now rewrite loadFiles_eq.
  - unfold dirExists, files in *. now destruct (directory w).
Qed.

Lemma filter_flat_map {A B : Type} (p : B -> bool) (g : A -> list B) l :
  filter p (flat_map g l) = flat_map (fun x => filter p (g x)) l.
Proof.
  induction l as [ | x l IH]; simpl; [reflexivity | ].
  now rewrite filter_app, IH.
Qed.

Lemma flat_map_filter_nil {A B : Type} (q : A -> bool) (g : A -> list B) l :
  (forall x, q x = false -> g x = []) ->
  flat_map g l = flat_map g (filter q l).
Proof.
  intros H. induction l as [ | x l IH]; simpl; [reflexivity | ].
  destruct (q x) eqn:E; simpl; [now rewrite IH | ].
  now rewrite (H x E).
Qed.

Lemma loadCalls_of_file lenv m f :
  filter isLoadBackupCall (loadFileEvents lenv m f) =
  if loadOpens lenv m f then loadCallsFor m f else [].
Proof.
  unfold loadFileEvents, loadOpens, loadCallsFor.
  destruct (fileOpensReadOnly lenv (filePath m f)); simpl; [ | reflexivity].
  destruct (zipOpensUnzip lenv (filePath m f)); simpl; [ | reflexivity].
  apply filter_all_true. intros e He. apply in_map_iff in He.
  now destruct He as (h & <- & _).
Qed.

Lemma load_calls lenv m w :
  filter isLoadBackupCall (load lenv m w) =
  flat_map (loadCallsFor m) (replayed lenv m w).
Proof.
  rewrite load_eq, filter_flat_map. unfold replayed.
  induction (entryInfoList "backup-*.zip" (files w)) as [ | f l IH]; simpl;
    [reflexivity | ].
  rewrite loadCalls_of_file, IH.
  destruct (loadOpens lenv m f); reflexivity.
Qed.

Lemma wildcardMatch_star pattern c n :
  wildcardMatch (String "*" pattern) (String c n) =
  (wildcardMatch pattern (String c n)
   || wildcardMatch (String "*" pattern) n)%bool.
Proof. reflexivity. Qed.

Lemma wildcardMatch_star_zip x : wildcardMatch "*.zip" (x ++ ".zip") = true.
Proof.
  induction x as [ | c x IH].
  - reflexivity.
  - change (String c x ++ ".zip") with (String c (x ++ ".zip")).
    rewrite wildcardMatch_star, IH. apply orb_true_r.
Qed.

(** The name filter of [load] matches every archive the executor names. *)
Lemma loader_filter_matches_archiveName prefix stamp :
  wildcardMatch "backup-*.zip" (archiveName prefix stamp) = true.
Proof.
  unfold archiveName. rewrite <- (append_assoc prefix (toString stamp) ".zip").
  change (wildcardMatch "*.zip" ((prefix ++ toString stamp) ++ ".zip") = true).
  apply wildcardMatch_star_zip.
Qed.

Lemma entryInfoList_In filter_ fs f :
  In f (entryInfoList filter_ fs) <->
  In f fs /\ wildcardMatch filter_ f = true.
Proof.
  unfold entryInfoList. rewrite sortByName_In, filter_In. tauto.
Qed.

(** X1.  [load] hands the handlers exactly the files that match
    [backup-*.zip] and open both as a file and as an archive: file by
    file in name order, and for each file every handler in the order of
    registration.  A file that does not open is reported and passed over,
    as is an archive that does not open; when no file matches, [load] does
    nothing. *)
Theorem load_replays_every_openable_archive lenv m w :
  filter isLoadBackupCall (load lenv m w) =
    flat_map (loadCallsFor m) (replayed lenv m w)
  /\ (forall f, In f (entryInfoList "backup-*.zip" (files w)) ->
        fileOpensReadOnly lenv (filePath m f) = false ->
        In (CouldNotOpenFile (filePath m f)) (load lenv m w))
  /\ (forall f, In f (entryInfoList "backup-*.zip" (files w)) ->
        fileOpensReadOnly lenv (filePath m f) = true ->
        zipOpensUnzip lenv (filePath m f) = false ->
        In (CouldNotOpenBackupArchive (filePath m f)) (load lenv m w))
  /\ (entryInfoList "backup-*.zip" (files w) = [] -> load lenv m w = []).
Proof.
  split; [apply load_calls | ]. rewrite load_eq.
  split; [ | split].
  - intros f Hf Ho. apply in_flat_map. exists f. split; [exact Hf | ].
    unfold loadFileEvents. rewrite Ho. now left.
  - intros f Hf Ho Hz. apply in_flat_map. exists f. split; [exact Hf | ].
    unfold loadFileEvents. rewrite Ho, Hz. now left.
  - intros ->. reflexivity.
Qed.

(** X2.  An archive written by the Backup Executor, whatever the
    prefix of its rule and its timestamp, is loaded by [load] into every
    registered handler when it is in the directory and opens: the filter
    [backup-*.zip] of [load] matches the names [backup] writes. *)
Theorem load_replays_executor_archives lenv m w prefix stamp h :
  In (archiveName prefix stamp) (files w) ->
  loadOpens lenv m (archiveName prefix stamp) = true ->
  In h (_backupHandlers m) ->
  In (LoadBackupCall h (filePath m (archiveName prefix stamp)))
     (load lenv m w).
Proof.
  intros Hf Ho Hh.
  assert (H : In (LoadBackupCall h (filePath m (archiveName prefix stamp)))
                (filter isLoadBackupCall (load lenv m w))).
  { rewrite load_calls. apply in_flat_map.
    exists (archiveName prefix stamp). split.
    - unfold replayed. apply filter_In. split; [ | exact Ho].
      apply entryInfoList_In. split; [exact Hf | ].
      apply loader_filter_matches_archiveName.
    - unfold loadCallsFor. apply in_map_iff. now exists h. }
  apply filter_In in H. tauto.
Qed.

Lemma load_replays_executor_archives_witness :
  In (LoadBackupCall 1%nat "/var/backups/backup-daily-2024-01-01_00-00-00.zip")
     (load openLoadEnv dailyManager juneWorld).
Proof.
  apply (load_replays_executor_archives openLoadEnv dailyManager juneWorld
           "daily-" (mkDateTime 2024 1 1 0 0 0) 1%nat).
  - vm_compute. auto.
  - reflexivity.
  - simpl. auto.
Defined.

Lemma sorted_filter (p : string -> bool) l :
  StronglySorted nameLe l -> StronglySorted nameLe (filter p l).
Proof.
  induction 1 as [ | x l Hs IH Hall]; simpl; [constructor | ].
  destruct (p x); [ | exact IH].
  constructor; [exact IH | ].
  rewrite Forall_forall in *. intros y Hy. apply filter_In in Hy.
  now apply Hall.
Qed.

Lemma sorted_before (l : list string) a b :
  StronglySorted nameLe l -> In a l -> In b l -> String.ltb a b = true ->
  exists l1 l2 l3, l = (l1 ++ a :: l2 ++ b :: l3)%list.
Proof.
  intros Hs Ha Hb Hlt.
  destruct (in_split a l Ha) as (l1 & l' & ->).
  apply in_app_or in Hb. destruct Hb as [Hb | [Hb | Hb]].
  - exfalso. pose proof (sorted_app_le l1 (a :: l') b a Hs Hb (or_introl eq_refl)) as Hle.
    unfold nameLe, String.leb, String.ltb in *.
    rewrite String.compare_antisym in Hle.
    destruct (String.compare a b); simpl in *; discriminate.
  - subst b. unfold String.ltb in Hlt.
    rewrite string_compare_refl in Hlt. discriminate.
  - destruct (in_split b l' Hb) as (l2 & l3 & ->). now exists l1, l2, l3.
Qed.

(** X3.  Of two archives of one rule that [load] replays, the one
    with the earlier timestamp in its name goes to the handlers first: the
    name order [load] reads the directory in is the order of the
    timestamps. *)
Theorem load_replays_older_archive_first lenv m w prefix a b ta tb :
  In a (replayed lenv m w) -> In b (replayed lenv m w) ->
  parsedTime ("backup-" ++ prefix) a = Some ta ->
  parsedTime ("backup-" ++ prefix) b = Some tb ->
  Qt.ltb ta tb = true ->
  exists t1 t2 t3,
    filter isLoadBackupCall (load lenv m w) =
    (t1 ++ loadCallsFor m a ++ t2 ++ loadCallsFor m b ++ t3)%list.
Proof.
  intros Ha Hb Hta Htb Hlt.
  destruct (sorted_before (replayed lenv m w) a b) as (l1 & l2 & l3 & Hsplit);
    auto.
  - unfold replayed, entryInfoList. apply sorted_filter, sortByName_sorted.
  - now rewrite (name_order_is_time_order _ a b ta tb Hta Htb).
  - rewrite load_calls, Hsplit.
    exists (flat_map (loadCallsFor m) l1), (flat_map (loadCallsFor m) l2),
           (flat_map (loadCallsFor m) l3).
    rewrite flat_map_app. simpl. rewrite flat_map_app. reflexivity.
Qed.

Lemma load_replays_older_archive_first_witness :
  exists t1 t2 t3,
    filter isLoadBackupCall (load openLoadEnv dailyManager juneWorld) =
    (t1 ++ loadCallsFor dailyManager "backup-daily-2024-01-01_00-00-00.zip"
        ++ t2
        ++ loadCallsFor dailyManager "backup-daily-2024-06-01_00-00-00.zip"
        ++ t3)%list.
Proof.
  apply (load_replays_older_archive_first openLoadEnv dailyManager juneWorld
           "daily-" _ _ (mkDateTime 2024 1 1 0 0 0) (mkDateTime 2024 6 1 0 0 0)).
  - vm_compute. auto.
  - vm_compute. auto.
  - vm_compute. reflexivity.
  - vm_compute. reflexivity.
  - reflexivity.
Defined.

(** ** Rules across cycles *)

Lemma backup_rules env m w :
  _backupRules (fst (backup env m w)) =
  map (stamped (toSecsSinceEpoch (utcOffset env) (clock env (ticks w))))
      (_backupRules m)
  /\ _backupDirectory (fst (backup env m w)) = _backupDirectory m
  /\ _backupHandlers (fst (backup env m w)) = _backupHandlers m.
Proof.
  unfold backup, currentDateTime.
  pose proof (backupRules_rules env m
                (toSecsSinceEpoch (utcOffset env) (clock env (ticks w)))
                (_backupRules m)
                (mkWorld (directory w) (S (ticks w)) (output w))) as H.
  destruct (backupRules env m _ (_backupRules m) _) as [rules w'].
  simpl in *. now rewrite H.
Qed.

(** The manager after a persist cycle: as it was, or with the rules
    stamped at the reading of the clock. *)
Lemma persist_manager env m w :
  fst (persist env m w) = m \/
  fst (persist env m w) =
  setBackupRules
    (map (stamped (toSecsSinceEpoch (utcOffset env) (clock env (ticks w))))
         (_backupRules m)) m.
Proof.
  unfold persist.
  destruct (mkpath_frame env w) as (_ & Hticks & _).
  destruct (directory (mkpath env w)) as [fs | ]; [ | now left].
  destruct (lockFileOpens env); [ | now left]. right.
  match goal with |- context [backup env m ?w0] =>
    destruct (backup_rules env m w0) as (Hr & Hd & Hh);
    destruct (backup env m w0) as [m' w'] end.
  simpl in *. rewrite Hticks in Hr.
  assert (Hm : m' = setBackupRules
                 (map (stamped (toSecsSinceEpoch (utcOffset env)
                                  (clock env (ticks w)))) (_backupRules m)) m).
  { destruct m'. unfold setBackupRules. simpl in *. congruence. }
  now destruct (removeSucceeds env _).
Qed.

Lemma stamped_fields now r :
  name (stamped now r) = name r
  /\ intervalSeconds (stamped now r) = intervalSeconds r
  /\ extensionFormat (stamped now r) = extensionFormat r
  /\ maxBackupVersions (stamped now r) = maxBackupVersions r.
Proof. unfold stamped. now destruct (fires now r). Qed.

Lemma stamped_forward now r :
  0 <= intervalSeconds r ->
  lastBackupSeconds r <= lastBackupSeconds (stamped now r).
Proof.
  unfold stamped, fires. intros H.
  destruct (intervalSeconds r <? now - lastBackupSeconds r) eqn:E; simpl.
  - apply Z.ltb_lt in E. lia.
  - lia.
Qed.

(** X4.  [persist] keeps the directory and the handlers of the
    manager and, rule by rule and in their order, the name, the interval,
    the prefix and the number of versions to keep; when no interval is
    negative, no rule's time of the last backup goes back. *)
Theorem persist_keeps_rules_and_never_sets_time_back env m w :
  let m' := fst (persist env m w) in
  _backupDirectory m' = _backupDirectory m
  /\ _backupHandlers m' = _backupHandlers m
  /\ map name (_backupRules m') = map name (_backupRules m)
  /\ map intervalSeconds (_backupRules m') = map intervalSeconds (_backupRules m)
  /\ map extensionFormat (_backupRules m') = map extensionFormat (_backupRules m)
  /\ map maxBackupVersions (_backupRules m')
     = map maxBackupVersions (_backupRules m)
  /\ ((forall r, In r (_backupRules m) -> 0 <= intervalSeconds r) ->
      Forall2 (fun r r' => lastBackupSeconds r <= lastBackupSeconds r')
              (_backupRules m) (_backupRules m')).
Proof.
  intros m'. unfold m'.
  destruct (persist_manager env m w) as [-> | ->].
  - repeat (split; [reflexivity | ]). intros _.
    induction (_backupRules m); constructor; [lia | assumption].
  - simpl. rewrite !map_map.
    repeat (split; [first [reflexivity | apply map_ext; intros r;
                           apply (stamped_fields _ r)] | ]).
    intros H. induction (_backupRules m) as [ | r l IH]; simpl; constructor.
    + apply stamped_forward, H. now left.
    + apply IH. intros r' Hr'. apply H. now right.
Qed.

Lemma backupRules_idle env m now rules : forall w,
  (forall r, In r rules -> fires now r = false) ->
  fst (backupRules env m now rules w) = rules
  /\ directory (snd (backupRules env m now rules w)) = directory w
  /\ ticks (snd (backupRules env m now rules w)) = ticks w.
Proof.
  induction rules as [ | r rest IH]; intros w H; simpl; [auto | ].
  rewrite (backupRule_idle env m now r w (H r (or_introl eq_refl))).
  match goal with |- context [backupRules env m now rest ?w0] =>
    destruct (IH w0 (fun r' Hr' => H r' (or_intror Hr'))) as (H1 & H2 & H3);
    destruct (backupRules env m now rest w0) as [rest' w'] end.
  simpl in *. subst rest'. auto.
Qed.

(** X5.  A backup cycle whose clock reads no later than the start
    of the cycle before it changes no rule and no file of the directory,
    when no interval is negative: a rule that fired has just been stamped,
    and a rule that did not fire is no more due than it was. *)
Theorem second_cycle_in_the_same_second_does_nothing env m w :
  let now := toSecsSinceEpoch (utcOffset env) (clock env (ticks w)) in
  let m1 := fst (backup env m w) in
  let w1 := snd (backup env m w) in
  (forall r, In r (_backupRules m) -> 0 <= intervalSeconds r) ->
  toSecsSinceEpoch (utcOffset env) (clock env (ticks w1)) <= now ->
  fst (backup env m1 w1) = m1
  /\ directory (snd (backup env m1 w1)) = directory w1.
Proof.
  intros now m1 w1 Hint Hclock.
  destruct (backup_rules env m w) as (Hr & Hd & Hh).
  fold m1 in Hr, Hd, Hh. fold now in Hr.
  set (now2 := toSecsSinceEpoch (utcOffset env) (clock env (ticks w1))) in *.
  assert (Hidle : forall r, In r (_backupRules m1) -> fires now2 r = false).
  { intros r' Hr'. rewrite Hr in Hr'. apply in_map_iff in Hr'.
    destruct Hr' as (r & <- & Hin). specialize (Hint r Hin).
    unfold stamped, fires.
    destruct (intervalSeconds r <? now - lastBackupSeconds r) eqn:E; simpl.
    - apply Z.ltb_ge. lia.
    - apply Z.ltb_ge in E. apply Z.ltb_ge. lia. }
  unfold backup, currentDateTime. fold now2.
  match goal with |- context [backupRules env m1 now2 (_backupRules m1) ?w0] =>
    destruct (backupRules_idle env m1 now2 (_backupRules m1) w0 Hidle)
      as (H1 & H2 & H3);
    destruct (backupRules env m1 now2 (_backupRules m1) w0) as [rules w'] end.
  simpl in *. subst rules. split; [now destruct m1 | exact H2].
Qed.

Lemma second_cycle_in_the_same_second_does_nothing_witness :
  let m1 := fst (backup frozenEnv dailyManager emptyWorld) in
  let w1 := snd (backup frozenEnv dailyManager emptyWorld) in
  fst (backup frozenEnv m1 w1) = m1
  /\ directory (snd (backup frozenEnv m1 w1)) = directory w1.
Proof.
  apply (second_cycle_in_the_same_second_does_nothing
           frozenEnv dailyManager emptyWorld).
  - intros r [<- | []]. apply Z.leb_le. reflexivity.
  - apply Z.leb_le. vm_compute. reflexivity.
Defined.

(** ** The Rule Store *)

Lemma scanner_frame m format o1 o2 w :
  directory (snd (getMostRecentBackup m format o1 o2 w)) = directory w /\
  ticks (snd (getMostRecentBackup m format o1 o2 w)) = ticks w.
Proof.
  unfold getMostRecentBackup.
  pose proof (scanEntries_frame m format
                (dirIteratorEntries (format ++ "*.zip") (files w))
                (mkBestBackup false "" None) w) as Hfr2.
  destruct (scanEntries m format (dirIteratorEntries (format ++ "*.zip") (files w)) _ w)
    as [best w']. simpl in Hfr2.
  now destruct (bestBackupFound best).
Qed.


Lemma parseRule_frame env m v w :
  directory (snd (parseRule env m v w)) = directory w.
Proof.
  unfold parseRule, getMostRecentBackupTimeInSecs.
  match goal with |- context [getMostRecentBackup m ?f ?a ?b ?w0] =>
    destruct (scanner_frame m f a b w0) as (Hd & _);
    destruct (getMostRecentBackup m f a b w0) as [[[found file] time] w1] end.
  simpl in Hd. cbv zeta.
  match goal with |- context [0 <? ?x] => destruct (0 <? x) end.
  - unfold currentSecsSinceEpoch, currentDateTime. simpl. exact Hd.
  - simpl. exact Hd.
Qed.

Lemma parseRules_frame env vs : forall m w,
  List.length (_backupRules (fst (parseRules env m vs w)))
  = (List.length (_backupRules m) + List.length vs)%nat
  /\ firstn (List.length (_backupRules m))
            (_backupRules (fst (parseRules env m vs w))) = _backupRules m
  /\ _backupDirectory (fst (parseRules env m vs w)) = _backupDirectory m
  /\ _backupHandlers (fst (parseRules env m vs w)) = _backupHandlers m
  /\ directory (snd (parseRules env m vs w)) = directory w.
Proof.
  induction vs as [ | v vs IH]; intros m w; simpl.
  - rewrite firstn_all. repeat split; lia.
  - pose proof (parseRule_frame env m v w) as Hd.
    destruct (parseRule env m v w) as [newRule w1]. simpl in Hd.
    destruct (IH (setBackupRules (_backupRules m ++ [newRule]) m) w1)
      as (H1 & H2 & H3 & H4 & H5).
    simpl in *. rewrite length_app in H1, H2. simpl in *.
    repeat split; try congruence; try lia.
    apply (f_equal (firstn (List.length (_backupRules m)))) in H2.
    rewrite firstn_firstn in H2.
    replace (Init.Nat.min (List.length (_backupRules m))
               (List.length (_backupRules m) + 1))
      with (List.length (_backupRules m)) in H2 by lia.
    rewrite H2. rewrite firstn_app, firstn_all, Nat.sub_diag. simpl.
    now rewrite app_nil_r.
Qed.

(** X6.  [parseSettings] appends one rule for every entry of the
    array [backups], behind the rules the manager has, and leaves the
    directory name, the handlers and the files of the directory alone. *)
Theorem parseSettings_adds_one_rule_per_entry env m settings w :
  let entries := toArray (Qt.value "backups" settings) in
  let m' := fst (parseSettings env m settings w) in
  List.length (_backupRules m')
  = (List.length (_backupRules m) + List.length entries)%nat
  /\ firstn (List.length (_backupRules m)) (_backupRules m') = _backupRules m
  /\ _backupDirectory m' = _backupDirectory m
  /\ _backupHandlers m' = _backupHandlers m
  /\ directory (snd (parseSettings env m settings w)) = directory w.
Proof.
  intros entries m'. unfold m', entries, parseSettings.
  destruct (Qt.value "backups" settings) as [ | | b | n d | s | items | ms];
    simpl; try (rewrite firstn_all; repeat split; lia).
  destruct (parseRules_frame env items m
              (emit BackupRulesHeader (emit (SettingsDump true) w)))
    as (H1 & H2 & H3 & H4 & H5).
  repeat split; assumption.
Qed.

Lemma parseRule_numbers env m v w :
  intervalSeconds (fst (parseRule env m v w)) =
    (let x := Qt.value "backupInterval" (toObject v) in
     if isString x then toInt (jsonToString x) else jsonToInt x)
  /\ maxBackupVersions (fst (parseRule env m v w)) =
    (let x := Qt.value "maxBackupVersions" (toObject v) in
     if isString x then toInt (jsonToString x) else jsonToInt x).
Proof.
  unfold parseRule.
  destruct (getMostRecentBackupTimeInSecs env m _ _) as [secs w1].
  cbv zeta. destruct (0 <? _).
  - destruct (currentSecsSinceEpoch env w1). now split.
  - now split.
Qed.

Lemma value_absent key (obj : QJsonObject) :
  (forall k x, In (k, x) obj -> k <> key) -> Qt.value key obj = JUndefined.
Proof.
  induction obj as [ | [k x] obj IH]; simpl; intros H; [reflexivity | ].
  destruct (String.eqb_spec k key) as [-> | _].
  - exfalso. now apply (H key x (or_introl eq_refl)).
  - apply IH. intros k' x' Hin. apply (H k' x'). now right.
Qed.

(** X7.  An entry of [backups] without the members [Name],
    [backupInterval] and [maxBackupVersions] still gives a rule: its name
    is empty, its prefix is the lone separator [-], and its interval and
    its number of versions to keep are 0. *)
Theorem rule_without_members_gets_defaults env m v w :
  (forall k x, In (k, x) (toObject v) ->
     k <> "Name" /\ k <> "backupInterval" /\ k <> "maxBackupVersions") ->
  name (fst (parseRule env m v w)) = ""
  /\ extensionFormat (fst (parseRule env m v w)) = "-"
  /\ intervalSeconds (fst (parseRule env m v w)) = 0
  /\ maxBackupVersions (fst (parseRule env m v w)) = 0.
Proof.
  intros H.
  rewrite parseRule_name, parseRule_extensionFormat.
  destruct (parseRule_numbers env m v w) as (-> & ->).
  unfold configuredName.
  rewrite !value_absent; [now repeat split | | | ];
    intros k x Hin; apply (H k x Hin).
Qed.

Lemma rule_without_members_gets_defaults_witness :
  name (fst (parseRule someEnv scanManager formatOnly emptyWorld)) = ""
  /\ extensionFormat (fst (parseRule someEnv scanManager formatOnly emptyWorld))
     = "-"
  /\ intervalSeconds (fst (parseRule someEnv scanManager formatOnly emptyWorld))
     = 0
  /\ maxBackupVersions (fst (parseRule someEnv scanManager formatOnly emptyWorld))
     = 0.
Proof.
  apply (rule_without_members_gets_defaults
           someEnv scanManager formatOnly emptyWorld).
  intros k x H. simpl in H. destruct H as [H | []].
  injection H as <- _. repeat split; discriminate.
Defined.

(** What the scan returns depends on the files of the directory only. *)
Lemma scanner_result_files m format o1 o2 w w' :
  files w = files w' ->
  fst (getMostRecentBackup m format o1 o2 w) =
  fst (getMostRecentBackup m format o1 o2 w').
Proof.
  intros H. rewrite !getMostRecentBackup_result, H.
  set (cs := candidates format (files w')).
  rewrite (scanEntries_skip m format cs _ w w').
  rewrite (scanEntries_skip m format cs _ w' w').
  reflexivity.
Qed.

Lemma parseRule_lastBackupSeconds env m v w :
  lastBackupSeconds (fst (parseRule env m v w)) =
  fst (getMostRecentBackupTimeInSecs env m (derivedPrefix (configuredName v)) w).
Proof.
  unfold parseRule, getMostRecentBackupTimeInSecs, derivedPrefix, configuredName.
  match goal with |- context [getMostRecentBackup m ?f ?a ?b ?w0] =>
    pose proof (scanner_result_files m f a b w0 w eq_refl) as Hres;
    destruct (getMostRecentBackup m f a b w0) as [[[found file] time] w1] end.
  destruct (getMostRecentBackup m _ "" None w) as [[[found' file'] time'] w2].
  simpl in Hres. injection Hres as -> -> ->.
  cbv zeta.
  match goal with |- context [0 <? ?x] => destruct (0 <? x) end.
  - destruct (currentSecsSinceEpoch env w1). reflexivity.
  - reflexivity.
Qed.

(** X8.  When the directory holds nothing but archives the Backup
    Executor wrote for a rule, the rule [parseSettings] builds from the
    entry starts with the time 0 for its last backup, as if it had never
    run. *)
Theorem restart_over_executor_archives_forgets_last_backup env m v w :
  (forall f, In f (files w) ->
     exists stamp, f = archiveName (derivedPrefix (configuredName v)) stamp) ->
  lastBackupSeconds (fst (parseRule env m v w)) = 0.
Proof.
  intros Hall. rewrite parseRule_lastBackupSeconds.
  unfold getMostRecentBackupTimeInSecs.
  assert (Hcs : candidates (derivedPrefix (configuredName v)) (files w) = []).
  { unfold candidates. apply filter_all_false. intros f Hf.
    unfold dirIteratorEntries in Hf. apply filter_In in Hf.
    destruct Hf as [Hf _]. destruct (Hall f Hf) as (stamp & ->).
    unfold hasParsedTime, parsedTime.
    now rewrite formatRE_rejects_archiveName. }
  pose proof (no_candidate_result m (derivedPrefix (configuredName v))
                "" None w Hcs) as Hres.
  destruct (getMostRecentBackup m _ "" None w) as [[[found file] time] w1].
  simpl in Hres. now injection Hres as -> -> ->.
Qed.

Lemma restart_over_executor_archives_forgets_last_backup_witness :
  lastBackupSeconds (fst (parseRule someEnv scanManager nameOnly juneWorld)) = 0.
Proof.
  apply (restart_over_executor_archives_forgets_last_backup
           someEnv scanManager nameOnly juneWorld).
  intros f H. simpl in H. destruct H as [<- | [<- | []]].
  - exists (mkDateTime 2024 1 1 0 0 0). reflexivity.
  - exists (mkDateTime 2024 6 1 0 0 0). reflexivity.
Defined.

(** X9.  When the directory holds a candidate for the prefix of a
    rule, the rule starts with the epoch seconds of the timestamp of a
    candidate that no other candidate is later than. *)
Theorem rule_is_seeded_from_latest_candidate env m v w :
  let format := derivedPrefix (configuredName v) in
  candidates format (files w) <> [] ->
  exists f t,
    In f (candidates format (files w))
    /\ parsedTime format f = Some t
    /\ (forall g u, In g (candidates format (files w)) ->
          parsedTime format g = Some u -> Qt.ltb t u = false)
    /\ lastBackupSeconds (fst (parseRule env m v w))
       = toSecsSinceEpoch (utcOffset env) t.
Proof.
  intros format Hne. rewrite parseRule_lastBackupSeconds. fold format.
  unfold getMostRecentBackupTimeInSecs.
  pose proof (getMostRecentBackup_result m format "" None w) as Hres.
  destruct (scanEntries_max m format (candidates format (files w))
              (mkBestBackup false "" None) w) as (Ha & _ & Hc).
  simpl in Hres.
  set (r := fst (scanEntries m format (candidates format (files w))
                   (mkBestBackup false "" None) w)) in *.
  destruct (candidates format (files w)) as [ | g0 cs] eqn:Ecs; [congruence | ].
  assert (Hg0 : exists u, parsedTime format g0 = Some u).
  { assert (Hin : In g0 (candidates format (files w)))
      by (rewrite Ecs; now left).
    apply filter_In in Hin. destruct Hin as [_ Hin].
    unfold hasParsedTime in Hin.
    destruct (parsedTime format g0) as [u | ]; [eauto | discriminate]. }
  destruct Hg0 as (u0 & Hu0).
  destruct (Ha g0 u0 (or_introl eq_refl) Hu0) as (t0 & Ht0 & _).
  destruct Hc as [Hr | (f & t & Hf & Ht & Hr)].
  { rewrite Hr in Ht0. discriminate. }
  exists f, t. rewrite Hr in Hres. simpl in Hres.
  repeat split; auto.
  - intros g u Hg Hu. destruct (Ha g u Hg Hu) as (t' & Ht' & Hle).
    rewrite Hr in Ht'. simpl in Ht'. now injection Ht' as <-.
  - destruct (getMostRecentBackup m format "" None w)
      as [[[found file] time] w1].
    simpl in Hres. now injection Hres as -> -> ->.
Qed.

Lemma rule_is_seeded_from_latest_candidate_witness :
  exists f t,
    In f (candidates "daily-" (files scanWorld))
    /\ parsedTime "daily-" f = Some t
    /\ (forall g u, In g (candidates "daily-" (files scanWorld)) ->
          parsedTime "daily-" g = Some u -> Qt.ltb t u = false)
    /\ lastBackupSeconds (fst (parseRule someEnv scanManager nameOnly scanWorld))
       = toSecsSinceEpoch (utcOffset someEnv) t.
Proof.
  apply (rule_is_seeded_from_latest_candidate
           someEnv scanManager nameOnly scanWorld).
  vm_compute. discriminate.
Defined.

(** ** What a cycle never removes *)

Lemma toLower_append a b : toLower (a ++ b) = toLower a ++ toLower b.
Proof. induction a as [ | c a IH]; simpl; [reflexivity | now rewrite IH]. Qed.

Lemma length_toLower s : String.length (toLower s) = String.length s.
Proof. induction s as [ | c s IH]; simpl; [reflexivity | now rewrite IH]. Qed.

Lemma substring_append_right a b :
  substring (String.length a) (String.length b) (a ++ b) = b.
Proof.
  induction a as [ | c a IH]; simpl; [apply substring_all | exact IH].
Qed.

(** A name the filter [<pattern>.zip] matches ends in [.zip]. *)
Lemma wildcardMatch_zip_suffix pattern : forall n,
  wildcardMatch (pattern ++ ".zip") n = true -> hasZipSuffix n = true.
Proof.
  assert (Hsuffix : forall n' s, toLower s = ".zip" ->
            hasZipSuffix (n' ++ s) = true).
  { intros n' s Hs. unfold hasZipSuffix.
    assert (Hlen : String.length s = 4%nat).
    { rewrite <- length_toLower, Hs. reflexivity. }
    rewrite length_append, Hlen.
    replace (String.length n' + 4 - 4)%nat with (String.length n') by lia.
    pose proof (substring_append_right n' s) as Hsub.
    rewrite Hlen in Hsub. rewrite Hsub, Hs.
    apply andb_true_iff. split; [apply Nat.leb_le; lia | reflexivity]. }
  induction pattern as [ | a pattern IH].
  - intros n H. change ("" ++ ".zip") with ".zip" in H.
    apply (Hsuffix "" n).
    destruct n as [ | c1 [ | c2 [ | c3 [ | c4 [ | c5 n]]]]]; try discriminate;
      cbn in H; try (rewrite ?andb_false_r in H; discriminate).
    repeat (apply andb_true_iff in H; destruct H as [?H H]).
    repeat match goal with E : Ascii.eqb _ _ = true |- _ =>
      apply Ascii.eqb_eq in E end.
    cbn [toLower].
    repeat match goal with E : _ = toLowerChar _ |- _ => rewrite <- E; clear E end.
    reflexivity.
  - change (String a pattern ++ ".zip") with (String a (pattern ++ ".zip")).
    intros n. induction n as [ | x n IHn].
    + simpl. destruct (Ascii.eqb a "*").
      * rewrite orb_false_r. apply IH.
      * discriminate.
    + destruct (Ascii.eqb_spec a "*") as [-> | Ha].
      * rewrite wildcardMatch_star. intros H.
        apply orb_true_iff in H. destruct H as [H | H]; [now apply IH | ].
        specialize (IHn H). clear - IHn.
        unfold hasZipSuffix in *. apply andb_true_iff in IHn.
        destruct IHn as [Hl He]. apply Nat.leb_le in Hl.
        apply andb_true_iff. split; [apply Nat.leb_le; simpl; lia | ].
        simpl String.length.
        replace (S (String.length n) - 4)%nat
          with (S (String.length n - 4)) by lia.
        exact He.
      * simpl. apply Ascii.eqb_neq in Ha. rewrite Ha.
        intros H. apply andb_true_iff in H. destruct H as [_ H].
        specialize (IH n H). clear - IH.
        unfold hasZipSuffix in *. apply andb_true_iff in IH.
        destruct IH as [Hl He]. apply Nat.leb_le in Hl.
        apply andb_true_iff. split; [apply Nat.leb_le; simpl; lia | ].
        simpl String.length.
        replace (S (String.length n) - 4)%nat
          with (S (String.length n - 4)) by lia.
        exact He.
Qed.

Lemma rule_filter_needs_zip_suffix prefix f :
  hasZipSuffix f = false -> wildcardMatch (prefix ++ "*.zip") f = false.
Proof.
  intros H. destruct (wildcardMatch (prefix ++ "*.zip") f) eqn:E;
    [ | reflexivity].
  change (prefix ++ "*.zip") with (prefix ++ ("*" ++ ".zip")) in E.
  rewrite <- append_assoc in E. apply wildcardMatch_zip_suffix in E.
  congruence.
Qed.

Lemma backup_keeps env m w f :
  In f (files w) ->
  (forall rule, In rule (_backupRules m) ->
     wildcardMatch (extensionFormat rule ++ "*.zip") f = false) ->
  In f (files (snd (backup env m w))).
Proof.
  intros Hf Hwm. unfold backup, currentDateTime.
  match goal with |- context [backupRules env m ?now (_backupRules m) ?w0] =>
    pose proof (backupRules_keeps env m now (_backupRules m) f w0 Hf Hwm) as H;
    destruct (backupRules env m now (_backupRules m) w0) as [rules w'] end.
  exact H.
Qed.

(** X10.  [persist] removes no file whose name does not end in
    [.zip], the crash marker apart: such a file of the directory is still
    there afterwards, whatever the rules are and whether or not the
    removals succeed. *)
Theorem persist_keeps_every_file_that_is_no_zip env m w f :
  In f (files w) -> hasZipSuffix f = false -> f <> lockFileName ->
  In f (files (snd (persist env m w))).
Proof.
  intros Hf Hzip Hlock.
  destruct (mkpath_frame env w) as (_ & _ & Hfiles).
  unfold persist.
  destruct (directory (mkpath env w)) as [fs | ] eqn:Ed;
    [ | cbn [snd]; now rewrite Hfiles].
  destruct (lockFileOpens env); [ | cbn [snd]; now rewrite Hfiles].
  assert (Hfs : fs = files w).
  { rewrite <- Hfiles. unfold files. now rewrite Ed. }
  match goal with |- context [backup env m ?w0] =>
    pose proof (backup_keeps env m w0 f) as Hk;
    destruct (backup env m w0) as [m' w'] end.
  assert (Hin : In f (files w')).
  { apply Hk.
    - unfold files. simpl. apply addFile_In. left. now rewrite Hfs.
    - intros rule _. now apply rule_filter_needs_zip_suffix. }
  destruct (removeSucceeds env _); cbn [snd]; [ | exact Hin].
  rewrite files_unlink. apply deleteFile_In. now split.
Qed.

Lemma persist_keeps_every_file_that_is_no_zip_witness :
  In "notes.txt" (files (snd (persist someEnv dailyManager mixedWorld))).
Proof.
  apply (persist_keeps_every_file_that_is_no_zip
           someEnv dailyManager mixedWorld "notes.txt").
  - simpl. auto.
  - reflexivity.
  - discriminate.
Defined.

(** ** Retention, run twice *)

Lemma retention_leaves_at_most_max env m rule w :
  NoDup (files w) -> 0 < maxBackupVersions rule ->
  (forall a, In a (attempted rule (files w)) ->
     removeSucceeds env (filePath m a) = true) ->
  Z.of_nat (List.length
              (matching rule (files (removeOldBackupVersions env m rule w))))
  <= maxBackupVersions rule.
Proof.
  intros Hnd HN Hall.
  destruct (attempted_facts rule (files w) Hnd HN) as (Hlen & Hndatt & _).
  rewrite removeOldBackupVersions_files.
  replace (0 <? maxBackupVersions rule) with true
    by (symmetry; now apply Z.ltb_lt).
  set (att := attempted rule (files w)) in *.
  set (ms := matching rule (files w)) in *.
  assert (Heq : matching rule (filter (survives env m att) (files w)) =
                filter (fun f => negb (existsb (String.eqb f) att)) ms).
  { unfold ms, matching. rewrite !filter_filter. apply filter_ext_in.
    intros f _. unfold survives.
    destruct (existsb (String.eqb f) att) eqn:E; simpl.
    - apply existsb_eqb_In in E. rewrite (Hall f E). simpl.
      now rewrite andb_false_r.
    - now rewrite andb_true_r. }
  rewrite Heq.
  pose proof (filter_partition_length
                (fun f => existsb (String.eqb f) att) ms) as Hp.
  rewrite (length_filter_mem ms) in Hp; auto.
  - lia.
  - now apply NoDup_filter.
  - apply attempted_In.
Qed.

(** X11.  A retention run whose removals succeed leaves a
    directory that a second run of the same rule does not change. *)
Theorem retention_run_twice_removes_nothing_more env m rule w :
  NoDup (files w) ->
  (forall a, In a (attempted rule (files w)) ->
     removeSucceeds env (filePath m a) = true) ->
  let w1 := removeOldBackupVersions env m rule w in
  files (removeOldBackupVersions env m rule w1) = files w1.
Proof.
  intros Hnd Hall w1. rewrite removeOldBackupVersions_files.
  destruct (0 <? maxBackupVersions rule) eqn:HN.
  - apply Z.ltb_lt in HN.
    pose proof (retention_leaves_at_most_max env m rule w Hnd HN Hall) as Hle.
    fold w1 in Hle.
    assert (Hatt : attempted rule (files w1) = []).
    { unfold attempted, entryInfoList.
      assert (Hl : List.length (sortByName (filter
                     (wildcardMatch (extensionFormat rule ++ "*.zip")) (files w1)))
                   = List.length (matching rule (files w1)))
        by apply Permutation_length, sortByName_perm.
      rewrite Hl.
      replace (Z.to_nat (Z.of_nat (List.length (matching rule (files w1)))
                         - maxBackupVersions rule)) with 0%nat by lia.
      reflexivity. }
    rewrite Hatt. apply filter_all_true. reflexivity.
  - apply filter_all_true. reflexivity.
Qed.

Lemma retention_run_twice_removes_nothing_more_witness :
  let w1 := removeOldBackupVersions someEnv scanManager keepTwo retentionWorld in
  files (removeOldBackupVersions someEnv scanManager keepTwo w1) = files w1.
Proof.
  apply (retention_run_twice_removes_nothing_more
           someEnv scanManager keepTwo retentionWorld).
  - simpl. repeat constructor; simpl; intuition discriminate.
  - intros a _. reflexivity.
Defined.

(** ** Decimal notation *)

Lemma digitValue_digitChar n : digitValue (digitChar n) = Some (n mod 10)%nat.
Proof.
  unfold digitValue, digitChar.
  pose proof (Nat.mod_upper_bound n 10 ltac:(lia)) as Hlt.
  rewrite nat_ascii_embedding by lia.
  replace ((48 <=? 48 + n mod 10)%nat && (48 + n mod 10 <=? 57)%nat) with true.
  - f_equal. lia.
  - symmetry. apply andb_true_iff. split; apply Nat.leb_le; lia.
Qed.

Lemma append_nil_r s : s ++ "" = s.
Proof. induction s as [ | c s IH]; simpl; [reflexivity | now rewrite IH]. Qed.

Lemma allDigits_append a b :
  allDigits (a ++ b) = allDigits a && allDigits b.
Proof.
  unfold allDigits. induction a as [ | c a IH]; simpl; [reflexivity | ].
  now rewrite IH, andb_assoc.
Qed.

Lemma digitsValue_append pre : forall a rest v,
  digitsValue a pre = Some v ->
  digitsValue a (pre ++ rest) = digitsValue v rest.
Proof.
  induction pre as [ | c pre IH]; simpl; intros a rest v H.
  - now injection H as ->.
  - destruct (digitValue c); [now apply IH | discriminate].
Qed.

Lemma div10_cases n :
  exists q r, n = (10 * q + r)%nat /\ (r < 10)%nat
              /\ (n / 10 = q)%nat /\ (n mod 10 = r)%nat.
Proof.
  exists (n / 10)%nat, (n mod 10)%nat.
  repeat split; [apply Nat.div_mod_eq | apply Nat.mod_upper_bound; lia].
Qed.

Lemma decimalFuel_step f n acc :
  decimalFuel (S f) n acc
  = if (n / 10 =? 0)%nat then String (digitChar n) acc
    else decimalFuel f (n / 10) (String (digitChar n) acc).
Proof. reflexivity. Qed.

(** The digits [decimalFuel] puts in front of its accumulator. *)
Lemma decimalFuel_spec f : forall n acc, (n <= f)%nat ->
  exists pre,
    decimalFuel (S f) n acc = pre ++ acc
    /\ allDigits pre = true
    /\ (forall a, digitsValue a pre
                  = Some (a * 10 ^ String.length pre + n)%nat)
    /\ (1 <= String.length pre)%nat
    /\ (n < 10 ^ String.length pre)%nat
    /\ (10 ^ (String.length pre - 1) <= n \/ String.length pre = 1)%nat.
Proof.
  induction f as [ | f IH]; intros n acc Hn.
  - assert (n = 0)%nat as -> by lia.
    exists (String (digitChar 0) "").
    split; [reflexivity | split; [reflexivity | split; [ | split; [ | split]]]].
    + intros a. cbn [digitsValue String.length].
      rewrite digitValue_digitChar. f_equal.
      change (0 mod 10)%nat with 0%nat. change (10 ^ 1)%nat with 10%nat. lia.
    + cbn [String.length]. lia.
    + cbn [String.length]. change (10 ^ 1)%nat with 10%nat. lia.
    + right. reflexivity.
  - rewrite decimalFuel_step.
    destruct (div10_cases n) as (q & r & Hqr & Hr & Hq & Hm).
    rewrite Hq.
    destruct (q =? 0)%nat eqn:E.
    + apply Nat.eqb_eq in E.
      exists (String (digitChar n) "").
      split; [reflexivity | split; [ | split; [ | split; [ | split]]]].
      * unfold allDigits, isDigit. cbn [list_ascii_of_string forallb].
        now rewrite digitValue_digitChar.
      * intros a. cbn [digitsValue String.length].
        rewrite digitValue_digitChar, Hm. f_equal.
        change (10 ^ 1)%nat with 10%nat. lia.
      * cbn [String.length]. lia.
      * cbn [String.length]. change (10 ^ 1)%nat with 10%nat. lia.
      * right. reflexivity.
    + apply Nat.eqb_neq in E.
      destruct (IH q (String (digitChar n) acc)) as
        (pre & Heq & Hd & Hv & Hl & Hub & Hlb); [lia | ].
      exists (pre ++ String (digitChar n) "").
      assert (Hlen : String.length (pre ++ String (digitChar n) "")
                     = S (String.length pre)).
      { rewrite length_append. cbn [String.length]. lia. }
      rewrite Hlen, Nat.pow_succ_r'.
      set (p := (10 ^ String.length pre)%nat) in *.
      split; [ | split; [ | split; [ | split; [lia | split]]]].
      * rewrite Heq, append_assoc. reflexivity.
      * rewrite allDigits_append, Hd. unfold allDigits, isDigit.
        cbn [list_ascii_of_string forallb andb].
        now rewrite digitValue_digitChar.
      * intros a. rewrite (digitsValue_append pre a _ _ (Hv a)).
        cbn [digitsValue]. rewrite digitValue_digitChar, Hm. f_equal.
        rewrite Hqr. ring.
      * lia.
      * left. replace (S (String.length pre) - 1)%nat
          with (String.length pre) by lia. fold p.
        destruct Hlb as [Hlb | Hlb].
        -- assert (Hp : p = (10 * 10 ^ (String.length pre - 1))%nat).
           { unfold p. rewrite <- Nat.pow_succ_r'. f_equal. lia. }
           lia.
        -- unfold p. rewrite Hlb. change (10 ^ 1)%nat with 10%nat. lia.
Qed.

Lemma decimal_spec n :
  allDigits (decimal n) = true
  /\ digitsValue 0 (decimal n) = Some n
  /\ (1 <= String.length (decimal n))%nat
  /\ (forall w, (1 <= w)%nat -> (n < 10 ^ w)%nat ->
        (String.length (decimal n) <= w)%nat).
Proof.
  unfold decimal.
  destruct (decimalFuel_spec n n "" (le_n n))
    as (pre & Heq & Hd & Hv & Hl & Hub & Hlb).
  rewrite Heq, append_nil_r.
  split; [exact Hd | split; [ | split; [exact Hl | ]]].
  - rewrite Hv. reflexivity.
  - intros w Hw Hn. destruct Hlb as [Hlb | Hlb]; [ | lia].
    assert (10 ^ (String.length pre - 1) < 10 ^ w)%nat as Hp by lia.
    apply Nat.pow_lt_mono_r_iff in Hp; lia.
Qed.

Lemma digitsValue_zeros k s : digitsValue 0 (zeros k ++ s) = digitsValue 0 s.
Proof. induction k as [ | k IH]; simpl; [reflexivity | exact IH]. Qed.

Lemma allDigits_zeros k : allDigits (zeros k) = true.
Proof. induction k as [ | k IH]; [reflexivity | exact IH]. Qed.

(** [zeroPad w n] for a number of at most [w] digits. *)
Lemma zeroPad_spec w n :
  (1 <= w)%nat -> (n < 10 ^ w)%nat ->
  String.length (zeroPad w n) = w
  /\ allDigits (zeroPad w n) = true
  /\ digitsValue 0 (zeroPad w n) = Some n.
Proof.
  intros Hw Hn. unfold zeroPad.
  destruct (decimal_spec n) as (Hd & Hv & Hl & Hlen).
  specialize (Hlen w Hw Hn).
  rewrite length_append, length_zeros, allDigits_append, allDigits_zeros, Hd,
    digitsValue_zeros.
  repeat split; auto. lia.
Qed.

(** ** Timestamps, written and read back *)

Lemma pad2_chars n :
  (n < 100)%nat ->
  exists a b, zeroPad 2 n = String a (String b "")
    /\ isDigit a = true /\ isDigit b = true
    /\ digitsValue 0 (String a (String b "")) = Some n.
Proof.
  intros H. destruct (zeroPad_spec 2 n) as (Hl & Hd & Hv); [lia | simpl; lia | ].
  destruct (zeroPad 2 n) as [ | a [ | b [ | c s]]]; try discriminate.
  exists a, b. unfold allDigits in Hd. simpl in Hd.
  apply andb_true_iff in Hd. destruct Hd as [Ha Hd].
  apply andb_true_iff in Hd. destruct Hd as [Hb _]. auto.
Qed.

Lemma pad4_chars n :
  (n < 10 ^ 4)%nat ->
  exists a b c d, zeroPad 4 n = String a (String b (String c (String d "")))
    /\ isDigit a = true /\ isDigit b = true /\ isDigit c = true
    /\ isDigit d = true
    /\ digitsValue 0 (String a (String b (String c (String d "")))) = Some n.
Proof.
  intros H. destruct (zeroPad_spec 4 n) as (Hl & Hd & Hv);
    [lia | exact H | ].
  destruct (zeroPad 4 n) as [ | a [ | b [ | c [ | d [ | e s]]]]];
    try discriminate.
  exists a, b, c, d. unfold allDigits in Hd. simpl in Hd.
  repeat (apply andb_true_iff in Hd; destruct Hd as [? Hd]). auto 10.
Qed.

Lemma isValid_bounds t :
  isValid t = true ->
  (month t < 100 /\ day t < 100 /\ hour t < 100 /\ minute t < 100
   /\ second t < 100)%nat.
Proof.
  unfold isValid. intros H.
  repeat (apply andb_true_iff in H; destruct H as [H ?]).
  repeat match goal with E : (_ <=? _)%nat = true |- _ =>
    apply Nat.leb_le in E end.
  assert (daysInMonth (year t) (month t) <= 31)%nat.
  { unfold daysInMonth.
    destruct (month t) as [ | [ | [ | [ | [ | [ | [ | [ | [ | [ | [ | [ | [ | ]]]]]]]]]]]]];
      try lia; destruct (isLeapYear (year t)); lia. }
  lia.
Qed.

(** X12.  The text [toString] writes for a valid date-time with a
    year below 10000 is read back by [fromString] as the same date-time,
    and the Scanner, given the whole prefix of the name the Executor
    writes ([backup-] and the prefix of the rule), reads that date-time
    from the name of the archive. *)
Theorem timestamp_written_is_read_back t :
  isValid t = true -> (year t < 10 ^ 4)%nat ->
  fromString (toString t) = Some t
  /\ forall prefix,
       parsedTime ("backup-" ++ prefix) (archiveName prefix t) = Some t.
Proof.
  intros Hvalid Hyear.
  assert (Hround : fromString (toString t) = Some t
                   /\ String.length (toString t) = 19%nat).
  { destruct (isValid_bounds t Hvalid) as (Hm & Hd & Hh & Hn & Hs).
    destruct (pad4_chars (year t) Hyear)
      as (y1 & y2 & y3 & y4 & Ey & ? & ? & ? & ? & Vy).
    destruct (pad2_chars (month t) Hm) as (m1 & m2 & Em & ? & ? & Vm).
    destruct (pad2_chars (day t) Hd) as (d1 & d2 & Ed & ? & ? & Vd).
    destruct (pad2_chars (hour t) Hh) as (h1 & h2 & Eh & ? & ? & Vh).
    destruct (pad2_chars (minute t) Hn) as (n1 & n2 & En & ? & ? & Vn).
    destruct (pad2_chars (second t) Hs) as (s1 & s2 & Es & ? & ? & Vs).
    unfold toString. rewrite Ey, Em, Ed, Eh, En, Es.
    split; [ | reflexivity].
    unfold fromString, dateTimeFields.
    cbn [String.append list_ascii_of_string forallb].
    repeat match goal with E : isDigit _ = true |- _ => rewrite E; clear E end.
    cbn [andb string_of_list_ascii].
    change (Ascii.eqb "-" "-") with true.
    change (Ascii.eqb "_" "_") with true. cbn [andb]. cbv beta iota.
    rewrite Vy, Vm, Vd, Vh, Vn, Vs.
    destruct t. cbn [year month day hour minute second] in *.
    now rewrite Hvalid. }
  destruct Hround as [Hfrom Hlen]. split; [exact Hfrom | ].
  intros prefix. unfold parsedTime, formatRE_cap1, archiveName.
  assert (Hstrip : stripPrefix ("backup-" ++ prefix)
                     ("backup-" ++ prefix ++ toString t ++ ".zip")
                   = Some (toString t ++ ".zip")).
  { rewrite <- append_assoc.
    generalize ("backup-" ++ prefix) as p. intros p.
    induction p as [ | c p IH]; simpl; [reflexivity | ].
    now rewrite Ascii.eqb_refl. }
  rewrite Hstrip.
  assert (H19 : substring 0 19 (toString t ++ ".zip") = toString t).
  { rewrite <- Hlen.
    generalize (toString t) as s. intros s.
    induction s as [ | c s IH]; simpl; [reflexivity | now rewrite IH]. }
  assert (Hzip : substring 19 (String.length (toString t ++ ".zip") - 19)
                   (toString t ++ ".zip") = ".zip").
  { rewrite length_append, Hlen. simpl Nat.sub. rewrite <- Hlen.
    apply (substring_append_right (toString t) ".zip"). }
  assert (Hre : matchesDateTimeRE (toString t) = true).
  { unfold matchesDateTimeRE. pose proof Hfrom as Hf. unfold fromString in Hf.
    destruct (dateTimeFields (toString t)); [reflexivity | discriminate]. }
  rewrite H19, Hzip, Hre. exact Hfrom.
Qed.

Lemma timestamp_written_is_read_back_witness :
  fromString (toString noon) = Some noon
  /\ forall prefix,
       parsedTime ("backup-" ++ prefix) (archiveName prefix noon) = Some noon.
Proof.
  apply (timestamp_written_is_read_back noon).
  - reflexivity.
  - apply Nat.ltb_lt. vm_compute. reflexivity.
Defined.

(** ** Numbers in the settings *)

Lemma rev_rev s : forall a b, Qt.rev (Qt.rev s a) b = Qt.rev a (s ++ b).
Proof.
  induction s as [ | c s IH]; intros a b; simpl; [reflexivity | ].
  rewrite IH. reflexivity.
Qed.

Lemma allDigits_rev s : forall acc,
  allDigits s = true -> allDigits acc = true ->
  allDigits (Qt.rev s acc) = true.
Proof.
  unfold allDigits. induction s as [ | c s IH]; intros acc Hs Ha; simpl in *;
    [exact Ha | ].
  apply andb_true_iff in Hs. destruct Hs as [Hc Hs].
  apply IH; [exact Hs | ]. simpl. now rewrite Hc.
Qed.

Lemma isDigit_cases c :
  isDigit c = true ->
  c <> " "%char /\ c <> "-"%char /\ c <> "+"%char.
Proof.
  intros H. repeat split; intros ->; discriminate.
Qed.

Lemma trimLeft_digits s : allDigits s = true -> trimLeft s = s.
Proof.
  destruct s as [ | c s]; [reflexivity | ]. unfold allDigits. simpl.
  intros H. apply andb_true_iff in H. destruct H as [Hc _].
  destruct c as [[] [] [] [] [] [] [] []]; try reflexivity; discriminate.
Qed.

Lemma trimmed_digits s : allDigits s = true -> trimmed s = s.
Proof.
  intros H. unfold trimmed. rewrite (trimLeft_digits s H).
  rewrite trimLeft_digits by (now apply allDigits_rev).
  rewrite rev_rev. simpl. apply append_nil_r.
Qed.

Lemma toInt_digits s n :
  allDigits s = true -> s <> "" -> digitsValue 0 s = Some n ->
  toInt s = if inIntRange (Z.of_nat n) then Z.of_nat n else 0.
Proof.
  intros Hd Hne Hv. unfold toInt. rewrite (trimmed_digits s Hd).
  destruct s as [ | c s]; [congruence | ].
  assert (Hc : isDigit c = true).
  { unfold allDigits in Hd. simpl in Hd. now apply andb_true_iff in Hd. }
  destruct c as [[] [] [] [] [] [] [] []]; try discriminate Hc;
    cbv beta iota zeta; rewrite Hv; reflexivity.
Qed.

Lemma toInt_decimal n :
  toInt (decimal n) = if inIntRange (Z.of_nat n) then Z.of_nat n else 0.
Proof.
  destruct (decimal_spec n) as (Hd & Hv & Hl & _).
  apply toInt_digits; auto. intros E. rewrite E in Hl. simpl in Hl. lia.
Qed.

(** X13.  A [backupInterval] given as the decimal text of a number
    and one given as that number give the same interval: the number when
    it fits an [int], 0 otherwise. *)
Theorem number_and_numeric_string_give_the_same_interval env m v v' w n :
  Qt.value "backupInterval" (toObject v) = JString (decimal n) ->
  Qt.value "backupInterval" (toObject v') = JDouble (Z.of_nat n) 1 ->
  intervalSeconds (fst (parseRule env m v w))
  = intervalSeconds (fst (parseRule env m v' w))
  /\ intervalSeconds (fst (parseRule env m v w))
     = (if Z.of_nat n <=? INT_MAX then Z.of_nat n else 0).
Proof.
  intros Hs Hd.
  destruct (parseRule_numbers env m v w) as (-> & _).
  destruct (parseRule_numbers env m v' w) as (-> & _).
  rewrite Hs, Hd. cbn [isString jsonToString jsonToInt].
  rewrite toInt_decimal.
  rewrite Z.mod_1_r, Z.div_1_r. cbn [Z.eqb andb].
  assert (Hr : inIntRange (Z.of_nat n) = (Z.of_nat n <=? INT_MAX)).
  { unfold inIntRange. replace (INT_MIN <=? Z.of_nat n) with true; [reflexivity | ].
    symmetry. apply Z.leb_le. unfold INT_MIN. lia. }
  rewrite Hr. split; reflexivity.
Qed.

Lemma number_and_numeric_string_give_the_same_interval_witness :
  intervalSeconds (fst (parseRule someEnv scanManager intervalAsString emptyWorld))
  = intervalSeconds (fst (parseRule someEnv scanManager intervalAsNumber emptyWorld))
  /\ intervalSeconds
       (fst (parseRule someEnv scanManager intervalAsString emptyWorld))
     = 3600.
Proof.
  apply (number_and_numeric_string_give_the_same_interval
           someEnv scanManager intervalAsString intervalAsNumber emptyWorld
           3600%nat).
  - vm_compute. reflexivity.
  - vm_compute. reflexivity.
Defined.

(** ** The scanner and the order of the directory *)

(** Two files that carry the same timestamp for a prefix are one file. *)
Lemma parsedTime_injective format a b t :
  parsedTime format a = Some t -> parsedTime format b = Some t -> a = b.
Proof.
  intros Ha Hb.
  pose proof (name_order_is_time_order format a b t t Ha Hb) as Hab.
  pose proof (name_order_is_time_order format b a t t Hb Ha) as Hba.
  rewrite ltb_irrefl in Hab, Hba. unfold String.ltb in *.
  rewrite String.compare_antisym in Hba.
  destruct (String.compare a b) eqn:E; simpl in *; try discriminate.
  now apply String.compare_eq_iff.
Qed.

Lemma candidates_timed format fs f :
  In f (candidates format fs) -> exists t, parsedTime format f = Some t.
Proof.
  intros H. apply filter_In in H. destruct H as [_ H].
  unfold hasParsedTime in H.
  destruct (parsedTime format f) as [t | ]; [eauto | discriminate].
Qed.

Lemma timed_distinct format l :
  NoDup l ->
  (forall f, In f l -> exists t, parsedTime format f = Some t) ->
  NoDup (map (parsedTime format) l).
Proof.
  induction l as [ | f l IH]; intros Hc Hin; simpl; constructor.
  - intros Hf. apply in_map_iff in Hf. destruct Hf as (g & Hg & Hgl).
    destruct (Hin f (or_introl eq_refl)) as (t & Ht).
    rewrite Ht in Hg.
    assert (g = f) by (eapply parsedTime_injective; eassumption).
    subst g. inversion Hc. contradiction.
  - apply IH; [now inversion Hc | intros g Hg; apply Hin; now right].
Qed.

Lemma candidates_distinct format fs :
  NoDup fs -> NoDup (map (parsedTime format) (candidates format fs)).
Proof.
  intros Hnd. apply timed_distinct.
  - unfold candidates, dirIteratorEntries. now repeat apply NoDup_filter.
  - intros f. apply candidates_timed.
Qed.

(** X14.  For one prefix, the timestamp determines the file name:
    two names the Scanner reads the same date-time from are the same
    name, so the candidates of a directory carry distinct timestamps. *)
Theorem files_of_a_directory_carry_distinct_timestamps format :
  (forall a b t,
     parsedTime format a = Some t -> parsedTime format b = Some t -> a = b)
  /\ (forall fs, NoDup fs ->
        NoDup (map (parsedTime format) (candidates format fs))).
Proof.
  split.
  - intros a b t. apply parsedTime_injective.
  - intros fs. apply candidates_distinct.
Qed.

Lemma Permutation_filter {A : Type} (p : A -> bool) l l' :
  Permutation l l' -> Permutation (filter p l) (filter p l').
Proof.
  induction 1 as [ | x l l' H IH | x y l | l l' l'' H1 IH1 H2 IH2]; simpl.
  - constructor.
  - destruct (p x); [now constructor | exact IH].
  - destruct (p x), (p y); try reflexivity. apply perm_swap.
  - now transitivity (filter p l').
Qed.

(** What the scan returns when there is a candidate and no two
    candidates share a timestamp. *)
Lemma scanner_latest m format o1 o2 w :
  candidates format (files w) <> [] ->
  NoDup (map (parsedTime format) (candidates format (files w))) ->
  exists f t,
    In f (candidates format (files w)) /\ parsedTime format f = Some t /\
    (forall g u, In g (candidates format (files w)) ->
       parsedTime format g = Some u -> g <> f -> Qt.ltb u t = true) /\
    fst (getMostRecentBackup m format o1 o2 w) = (true, filePath m f, Some t).
Proof.
  intros Hne Hnd. rewrite getMostRecentBackup_result. simpl.
  destruct (scanEntries_max m format (candidates format (files w))
              (mkBestBackup false "" None) w) as (Ha & _ & Hc).
  set (cs := candidates format (files w)) in *.
  set (r := fst (scanEntries m format cs (mkBestBackup false "" None) w)) in *.
  destruct cs as [ | g0 cs'] eqn:Ecs; [congruence | ].
  destruct (candidates_timed format (files w) g0) as (u0 & Hu0).
  { fold cs. rewrite Ecs. now left. }
  destruct (Ha g0 u0 (or_introl eq_refl) Hu0) as (t0 & Ht0 & _).
  destruct Hc as [Hr | (f & t & Hf & Ht & Hr)].
  { rewrite Hr in Ht0. discriminate. }
  exists f, t. rewrite Hr. simpl. repeat split; auto.
  intros g u Hg Hu Hgf.
  destruct (Ha g u Hg Hu) as (t' & Ht' & Hle).
  rewrite Hr in Ht'. simpl in Ht'. injection Ht' as <-.
  destruct (Qt.ltb u t) eqn:Hlt; [reflexivity | exfalso].
  apply Hgf. eapply NoDup_map_eq; [exact Hnd | exact Hg | exact Hf | ].
  rewrite Hu, Ht. f_equal. now apply ltb_total.
Qed.

(** X15.  What [getMostRecentBackup] finds does not depend on the
    order in which the directory iterator yields the files. *)
Theorem scanner_ignores_the_order_of_the_directory m format o1 o2 w w' :
  NoDup (files w) -> Permutation (files w) (files w') ->
  fst (getMostRecentBackup m format o1 o2 w)
  = fst (getMostRecentBackup m format o1 o2 w').
Proof.
  intros Hnd Hperm.
  assert (Hnd' : NoDup (files w')) by (eapply Permutation_NoDup; eassumption).
  assert (Hcs : Permutation (candidates format (files w))
                            (candidates format (files w'))).
  { unfold candidates, dirIteratorEntries. now repeat apply Permutation_filter. }
  destruct (candidates format (files w)) as [ | g cs] eqn:E.
  - apply Permutation_nil in Hcs.
    rewrite !no_candidate_result; auto.
  - assert (Hne : candidates format (files w) <> []) by (rewrite E; discriminate).
    assert (Hne' : candidates format (files w') <> []).
    { intros E'. rewrite E' in Hcs. apply Permutation_sym, Permutation_nil in Hcs.
      discriminate. }
    rewrite <- E in Hcs.
    destruct (scanner_latest m format o1 o2 w Hne
                (candidates_distinct format _ Hnd))
      as (f & t & Hf & Ht & Hmax & ->).
    destruct (scanner_latest m format o1 o2 w' Hne'
                (candidates_distinct format _ Hnd'))
      as (f' & t' & Hf' & Ht' & Hmax' & ->).
    destruct (string_dec f' f) as [-> | Hneq].
    + rewrite Ht in Ht'. now injection Ht' as <-.
    + exfalso.
      assert (H1 : Qt.ltb t' t = true).
      { apply (Hmax f' t'); auto.
        eapply Permutation_in; [symmetry; exact Hcs | exact Hf']. }
      assert (H2 : Qt.ltb t t' = true).
      { apply (Hmax' f t); auto.
        eapply Permutation_in; [exact Hcs | exact Hf]. }
      exact (ltb_asym _ _ H1 H2).
Qed.

Lemma scanner_ignores_the_order_of_the_directory_witness :
  fst (getMostRecentBackup scanManager "daily-" "" None scanWorld)
  = fst (getMostRecentBackup scanManager "daily-" "" None reversedScanWorld).
Proof.
  apply (scanner_ignores_the_order_of_the_directory
           scanManager "daily-" "" None scanWorld reversedScanWorld).
  - simpl. repeat constructor; simpl; intuition discriminate.
  - apply Permutation_rev.
Defined.

(** ** The Scheduler *)

(** X16.  A turn of [process] that finds more than the persist
    interval gone since the last check runs [persist] and notes the time;
    a later turn within the interval of that time changes nothing and only
    reports whether the thread is still running. *)
Theorem process_persists_at_most_once_per_interval
    env after1 running2 after2 now1 now2 s w :
  _persistInterval s * 1000 < now1 - _lastCheck s ->
  now2 - now1 <= _persistInterval s * 1000 ->
  let '(_, s1, w1) := process env true after1 now1 s w in
  (s1, w1) = (mkScheduler (fst (persist env (manager s) w))
                          (_persistInterval s) now1,
              snd (persist env (manager s) w))
  /\ process env running2 after2 now2 s1 w1 = (after2, s1, w1).
Proof.
  intros Hdue Hsoon. unfold process at 1.
  replace (_persistInterval s * 1000 <? now1 - _lastCheck s) with true
    by (symmetry; now apply Z.ltb_lt).
  destruct (persist env (manager s) w) as [m1 w1]. simpl.
  split; [reflexivity | ].
  unfold process. simpl.
  replace (_persistInterval s * 1000 <? now2 - now1) with false
    by (symmetry; now apply Z.ltb_ge).
  now destruct running2.
Qed.

Lemma process_persists_at_most_once_per_interval_witness :
  let '(_, s1, w1) :=
    process someEnv true true 40000000 dailyScheduler emptyWorld in
  (s1, w1) = (mkScheduler (fst (persist someEnv dailyManager emptyWorld))
                          DEFAULT_PERSIST_INTERVAL 40000000,
              snd (persist someEnv dailyManager emptyWorld))
  /\ process someEnv true true 40000001 s1 w1 = (true, s1, w1).
Proof.
  apply (process_persists_at_most_once_per_interval
           someEnv true true true 40000000 40000001 dailyScheduler emptyWorld).
  - reflexivity.
  - apply Z.leb_le. reflexivity.
Defined.

(** ** The Consolidator *)






(** ** AnimNode: the children of a node *)

Lemma eraseFirst_absent c l : ~ In c l -> AnimNode.eraseFirst c l = l.
Proof.
  induction l as [ | d l IH]; intros Hc; simpl; [reflexivity | ].
  destruct (Nat.eqb_spec d c) as [-> | Hd].
  - exfalso. apply Hc. now left.
  - rewrite IH; [reflexivity | ]. intros H. apply Hc. now right.
Qed.

Lemma eraseFirst_split c l1 : forall l2,
  ~ In c l1 ->
  AnimNode.eraseFirst c (l1 ++ c :: l2) = (l1 ++ l2)%list.
Proof.
  induction l1 as [ | d l1 IH]; intros l2 Hc; simpl.
  - now rewrite Nat.eqb_refl.
  - destruct (Nat.eqb_spec d c) as [-> | Hd].
    + exfalso. apply Hc. now left.
    + rewrite IH; [reflexivity | ]. intros H. apply Hc. now right.
Qed.

Lemma eraseFirst_length c l :
  In c l -> S (List.length (AnimNode.eraseFirst c l)) = List.length l.
Proof.
  induction l as [ | d l IH]; intros Hc; simpl; [destruct Hc | ].
  destruct (Nat.eqb_spec d c) as [-> | Hd]; [reflexivity | ].
  simpl. rewrite IH; [reflexivity | ]. destruct Hc; [contradiction | assumption].
Qed.

Lemma eraseFirst_count c d l :
  d <> c ->
  count_occ Nat.eq_dec (AnimNode.eraseFirst c l) d = count_occ Nat.eq_dec l d.
Proof.
  intros Hd. induction l as [ | e l IH]; simpl; [reflexivity | ].
  destruct (Nat.eqb_spec e c) as [-> | He].
  - destruct (Nat.eq_dec c d); [congruence | reflexivity].
  - simpl. destruct (Nat.eq_dec e d); now rewrite IH.
Qed.

Lemma eraseFirst_count_self c l :
  count_occ Nat.eq_dec (AnimNode.eraseFirst c l) c
  = Nat.pred (count_occ Nat.eq_dec l c).
Proof.
  induction l as [ | e l IH]; simpl; [reflexivity | ].
  destruct (Nat.eqb_spec e c) as [-> | He].
  - destruct (Nat.eq_dec c c); [reflexivity | congruence].
  - simpl. destruct (Nat.eq_dec e c); [congruence | exact IH].
Qed.

(** X19.  [addChild] puts the child behind the children there are: the
    count grows by one, [getChild] at the old count gives the new child,
    the children before it keep their places, and the id and the type of
    the node stay. *)
Theorem addChild_appends_the_child n c :
  AnimNode.getChildCount (AnimNode.addChild c n) = AnimNode.getChildCount n + 1
  /\ AnimNode.getChild (AnimNode.getChildCount n) (AnimNode.addChild c n)
     = Some c
  /\ (forall i, 0 <= i < AnimNode.getChildCount n ->
        AnimNode.getChild i (AnimNode.addChild c n) = AnimNode.getChild i n)
  /\ AnimNode.getID (AnimNode.addChild c n) = AnimNode.getID n
  /\ AnimNode.getType (AnimNode.addChild c n) = AnimNode.getType n.
Proof.
  unfold AnimNode.getChildCount, AnimNode.getChild, AnimNode.addChild.
  cbn [AnimNode._children AnimNode._id AnimNode._type
       AnimNode.getID AnimNode.getType].
  rewrite length_app. cbn [List.length].
  split; [lia | split; [ | split; [ | split; reflexivity]]].
  - replace (0 <=? Z.of_nat (List.length (AnimNode._children n))) with true
      by (symmetry; apply Z.leb_le; lia).
    replace (Z.of_nat (List.length (AnimNode._children n))
             <? Z.of_nat (List.length (AnimNode._children n) + 1)) with true
      by (symmetry; apply Z.ltb_lt; lia).
    cbn [andb]. rewrite Nat2Z.id, nth_error_app2 by lia.
    now rewrite Nat.sub_diag.
  - intros i Hi.
    replace (0 <=? i) with true by (symmetry; apply Z.leb_le; lia).
    replace (i <? Z.of_nat (List.length (AnimNode._children n) + 1)) with true
      by (symmetry; apply Z.ltb_lt; lia).
    replace (i <? Z.of_nat (List.length (AnimNode._children n))) with true
      by (symmetry; apply Z.ltb_lt; lia).
    cbn [andb]. apply nth_error_app1. lia.
Qed.


(** X21.  [removeChild] takes out the first child equal to the given one
    and nothing else: a node without that child stays as it is; with the
    child, the children before and behind its first place close up in
    their order, the count falls by one, a second copy of the child
    stays, and every other child is there as often as before. *)
Theorem removeChild_erases_the_first_occurrence n c :
  (~ In c (AnimNode._children n) -> AnimNode.removeChild c n = n)
  /\ (forall l1 l2, AnimNode._children n = (l1 ++ c :: l2)%list ->
        ~ In c l1 ->
        AnimNode._children (AnimNode.removeChild c n) = (l1 ++ l2)%list)
  /\ (In c (AnimNode._children n) ->
        AnimNode.getChildCount (AnimNode.removeChild c n)
        = AnimNode.getChildCount n - 1)
  /\ count_occ Nat.eq_dec (AnimNode._children (AnimNode.removeChild c n)) c
     = Nat.pred (count_occ Nat.eq_dec (AnimNode._children n) c)
  /\ (forall d, d <> c ->
        count_occ Nat.eq_dec (AnimNode._children (AnimNode.removeChild c n)) d
        = count_occ Nat.eq_dec (AnimNode._children n) d).
Proof.
  unfold AnimNode.removeChild, AnimNode.getChildCount.
  cbn [AnimNode._children].
  split; [ | split; [ | split; [ | split]]].
  - intros H. rewrite (eraseFirst_absent c _ H). now destruct n.
  - intros l1 l2 -> H. now apply eraseFirst_split.
  - intros H. rewrite <- (eraseFirst_length c _ H). lia.
  - apply eraseFirst_count_self.
  - intros d Hd. now apply eraseFirst_count.
Qed.

(** X22.  Adding a child and removing it again gives the node back when
    the child was not there before.  When it was, the copy that goes is
    the earlier one, so the child moves to the end: the children [1; 2]
    become [2; 1]. *)
Theorem addChild_then_removeChild n c :
  (~ In c (AnimNode._children n) ->
     AnimNode.removeChild c (AnimNode.addChild c n) = n)
  /\ (In c (AnimNode._children n) ->
        AnimNode._children (AnimNode.removeChild c (AnimNode.addChild c n))
        = (AnimNode.eraseFirst c (AnimNode._children n) ++ [c])%list)
  /\ AnimNode.removeChild 1%nat
       (AnimNode.addChild 1%nat
          (AnimNode.mkAnimNode "root" AnimNode.ClipType [1%nat; 2%nat]))
     = AnimNode.mkAnimNode "root" AnimNode.ClipType [2%nat; 1%nat].
Proof.
  unfold AnimNode.removeChild, AnimNode.addChild.
  cbn [AnimNode._children AnimNode._id AnimNode._type].
  split; [ | split; [ | reflexivity]].
  - intros H. rewrite eraseFirst_split, app_nil_r by exact H. now destruct n.
  - intros H. apply in_split in H. destruct H as (l1 & l2 & H).
    revert l1 l2 H. generalize (AnimNode._children n) as l.
    induction l as [ | d l IH]; intros l1 l2 H.
    + destruct l1; discriminate.
    + simpl. destruct (Nat.eqb_spec d c) as [-> | Hd]; [reflexivity | ].
      destruct l1 as [ | e l1]; [injection H as -> _; congruence | ].
      injection H as _ H. simpl. f_equal. exact (IH l1 l2 H).
Qed.
